(** * A multi-threaded HTTP multipart downloader: queue.c and http.c

    Shallow embedding of the bounded task queue ([src/queue.c]) and of the
    HTTP helper functions ([src/http.c]), with the properties of the
    specification proved about them.

    Conventions.
    - A C [int] is a [Z] in [[INT_MIN, INT_MAX]]; a [size_t] is a [Z] taken
      modulo [2^64].  Wrap-around is written out where the code computes.
    - A pointer that may be [NULL] is an [option]; a [char*] into a buffer is
      an offset into the buffer's bytes.
    - Operations that the C standard leaves undefined (out-of-bounds access,
      dereference of [NULL], division by zero, ...) are an explicit outcome
      of the model, never a made-up value. *)

From Stdlib Require Import ZArith Lia Bool Ascii String.
From stdpp Require Import base list.

Open Scope Z_scope.

(** ** Machine constants (LP64, glibc) *)

Definition INT_MAX : Z := 2147483647.
Definition INT_MIN : Z := -2147483648.
Definition SIZE_MOD : Z := 2 ^ 64.
Definition PTRDIFF_MAX : Z := 2 ^ 63 - 1.
Definition SEM_VALUE_MAX : Z := 2147483647.
Definition UINT_MOD : Z := 2 ^ 32.

Definition is_int (z : Z) : Prop := INT_MIN <= z <= INT_MAX.

(** * queue.c *)

Module Queue.

(** [void*]: an address; [NULL] is address 0. *)
Definition ptr : Type := Z.
Definition NULL : ptr := 0.

(** What a call can do, seen from the calling thread: return, stay blocked
    on a semaphore or mutex, or run into undefined behaviour. *)
Inductive result (A : Type) : Type :=
| Done (a : A)
| Blocked
| Fault.
Arguments Done {A} a.
Arguments Blocked {A}.
Arguments Fault {A}.

Definition bind {A B : Type} (r : result A) (k : A -> result B) : result B :=
  match r with
  | Done a => k a
  | Blocked => Blocked
  | Fault => Fault
  end.

Notation "'let*' x := r 'in' k" := (bind r (fun x => k))
  (at level 10, x name, r at level 100, k at level 200).

(** *** Semaphores and the mutex

    A [sem_t] is its counter, or [None] when it was never initialised.
    [sem_init] takes an [unsigned int] and refuses values above
    [SEM_VALUE_MAX] (EINVAL); the callers ignore its return value. *)
Definition sem_t : Type := option Z.

Definition sem_init (value : Z) : sem_t :=
  let v := value mod UINT_MOD in
  if v <=? SEM_VALUE_MAX then Some v else None.

Definition sem_wait (s : sem_t) : result sem_t :=
  match s with
  | None => Fault
  | Some v => if 0 <? v then Done (Some (v - 1)) else Blocked
  end.

(** [sem_post] fails with EOVERFLOW at [SEM_VALUE_MAX] and leaves the
    counter as it is; the callers ignore its return value. *)
Definition sem_post (s : sem_t) : result sem_t :=
  match s with
  | None => Fault
  | Some v => if v <? SEM_VALUE_MAX then Done (Some (v + 1)) else Done (Some v)
  end.

(** A default mutex: [true] when held. *)
Definition pthread_mutex_t : Type := bool.

Definition pthread_mutex_init : pthread_mutex_t := false.

Definition pthread_mutex_lock (m : pthread_mutex_t) : result pthread_mutex_t :=
  if m then Blocked else Done true.

Definition pthread_mutex_unlock (m : pthread_mutex_t) : result pthread_mutex_t :=
  if m then Done false else Fault.

(** *** The slot array

    [malloc(sizeof(void** ) * size)]: the product is computed in [size_t];
    a request above [PTRDIFF_MAX] is refused and yields [NULL], any other
    request is taken to succeed.  The model keeps the slots that may be accessed through [queue->task]: none for
    [NULL] or for a zero-sized block.  Fresh slots hold indeterminate
    values, fixed to [NULL] here; no slot is read before it is written. *)
Definition malloc_slots (size : Z) : list ptr :=
  let bytes := (8 * (size mod SIZE_MOD)) mod SIZE_MOD in
  if bytes <=? PTRDIFF_MAX then replicate (Z.to_nat (bytes / 8)) NULL else [].

Definition load (t : list ptr) (i : Z) : result ptr :=
  if 0 <=? i then
    match t !! Z.to_nat i with
    | Some v => Done v
    | None => Fault
    end
  else Fault.

Definition store (t : list ptr) (i : Z) (v : ptr) : result (list ptr) :=
  if (0 <=? i) && (i <? Z.of_nat (length t)) then Done (<[Z.to_nat i := v]> t)
  else Fault.

(** *** struct QueueStruct *)
Record Queue : Type := mkQueue {
  full : sem_t;
  empty : sem_t;
  task : list ptr;
  size : Z;
  mutex : pthread_mutex_t
}.

(** [queue_alloc]: the returned pointer is never [NULL] (the result of the
    first [malloc] is dereferenced unchecked; allocation of the struct is
    taken to succeed). *)
Definition queue_alloc (size : Z) : option Queue :=
  Some {| task := malloc_slots size;
          size := 0;
          full := sem_init 0;
          empty := sem_init size;
          mutex := pthread_mutex_init |}.

(** [queue_put] *)
Definition queue_put (queue : Queue) (item : ptr) : result Queue :=
  let* e := sem_wait (empty queue) in
  let* m := pthread_mutex_lock (mutex queue) in
  let* t := store (task queue) (size queue) item in
  let sz := (size queue + 1) mod SIZE_MOD in
  let* m' := pthread_mutex_unlock m in
  let* f := sem_post (full queue) in
  Done {| full := f; empty := e; task := t; size := sz; mutex := m' |}.

(** The loop [for (int i = 1; i < queue->size; i++) task[i-1] = task[i];]
    unrolled by its trip count [n = size - 1]; [i] is an [int], so [i++]
    at [INT_MAX] is undefined. *)
Fixpoint shift_loop (n : nat) (i : Z) (t : list ptr) : result (list ptr) :=
  match n with
  | O => Done t
  | S n' =>
      let* v := load t i in
      let* t' := store t (i - 1) v in
      if INT_MAX <=? i then Fault else shift_loop n' (i + 1) t'
  end.

(** [queue_get] *)
Definition queue_get (queue : Queue) : result (ptr * Queue) :=
  let* f := sem_wait (full queue) in
  let* m := pthread_mutex_lock (mutex queue) in
  let* item := load (task queue) 0 in
  let* t := shift_loop (Z.to_nat (size queue - 1)) 1 (task queue) in
  let sz := (size queue - 1) mod SIZE_MOD in
  let* t' := store t sz NULL in
  let* m' := pthread_mutex_unlock m in
  let* e := sem_post (empty queue) in
  Done (item, {| full := f; empty := e; task := t'; size := sz; mutex := m' |}).

(** *** Sequences of calls made by one thread *)

Fixpoint put_all (queue : Queue) (items : list ptr) : result Queue :=
  match items with
  | [] => Done queue
  | a :: rest => let* q' := queue_put queue a in put_all q' rest
  end.

Fixpoint get_n (queue : Queue) (n : nat) : result (list ptr * Queue) :=
  match n with
  | O => Done ([], queue)
  | S n' =>
      let* r := queue_get queue in
      let* r' := get_n (snd r) n' in
      Done (fst r :: fst r', snd r')
  end.

(** Queues the program can build: allocated with capacity [k], then used
    through completed calls of [queue_put] and [queue_get]. *)
Inductive reachable (k : Z) : Queue -> Prop :=
| reach_alloc q :
    queue_alloc k = Some q -> reachable k q
| reach_put q item q' :
    reachable k q -> queue_put q item = Done q' -> reachable k q'
| reach_get q item q' :
    reachable k q -> queue_get q = Done (item, q') -> reachable k q'.

(** The items waiting in the queue, head first. *)
Definition pending (q : Queue) : list ptr := take (Z.to_nat (size q)) (task q).

(** The representation invariant of a queue of capacity [k]. *)
Record inv (k : Z) (q : Queue) : Prop := mkInv {
  inv_full : full q = Some (size q);
  inv_empty : empty q = Some (k - size q);
  inv_size : 0 <= size q <= k;
  inv_slots : Z.of_nat (length (task q)) = k;
  inv_mutex : mutex q = false
}.

(** A history of completed calls, in any order; [run_ops] performs them
    and collects what the calls of [queue_get] returned. *)
Inductive op : Type :=
| Put (item : ptr)
| Get.

Fixpoint run_ops (queue : Queue) (ops : list op) : result (Queue * list ptr) :=
  match ops with
  | [] => Done (queue, [])
  | Put item :: rest =>
      let* q' := queue_put queue item in
      run_ops q' rest
  | Get :: rest =>
      let* r := queue_get queue in
      let* r' := run_ops (snd r) rest in
      Done (fst r', fst r :: snd r')
  end.

Fixpoint puts_of (ops : list op) : list ptr :=
  match ops with
  | [] => []
  | Put item :: rest => item :: puts_of rest
  | Get :: rest => puts_of rest
  end.

End Queue.

(** * queue.c under several threads

    The same code, one atomic action at a time.  A thread inside
    [queue_put] or [queue_get] stands at one of the calls that touch the
    shared queue: the wait on a semaphore, the lock, the body between lock
    and unlock (run as one action, since the mutex is held), the post. *)

Module Threads.
Import Queue.

Inductive pc : Type :=
| Idle
| PutWait (item : ptr)
| PutLock (item : ptr)
| PutBody (item : ptr)
| PutPost
| GetWait
| GetLock
| GetBody
| GetPost (item : ptr).

(** What an action does to the order of items: nothing, or an item enters
    or leaves the slot array. *)
Inductive effect : Type :=
| Quiet
| Enqueued (item : ptr)
| Dequeued (item : ptr).

Definition with_empty (q : Queue) (e : sem_t) : Queue :=
  {| full := full q; empty := e; task := task q; size := size q; mutex := mutex q |}.

Definition with_full (q : Queue) (f : sem_t) : Queue :=
  {| full := f; empty := empty q; task := task q; size := size q; mutex := mutex q |}.

Definition with_mutex (q : Queue) (m : pthread_mutex_t) : Queue :=
  {| full := full q; empty := empty q; task := task q; size := size q; mutex := m |}.

(** The next action of a thread standing at [p]; [Blocked] when it cannot
    be taken now. *)
Definition action (q : Queue) (p : pc) : result (Queue * pc * effect) :=
  match p with
  | Idle => Blocked
  | PutWait item =>
      let* e := sem_wait (empty q) in
      Done (with_empty q e, PutLock item, Quiet)
  | PutLock item =>
      let* m := pthread_mutex_lock (mutex q) in
      Done (with_mutex q m, PutBody item, Quiet)
  | PutBody item =>
      let* t := store (task q) (size q) item in
      let sz := (size q + 1) mod SIZE_MOD in
      let* m' := pthread_mutex_unlock (mutex q) in
      Done ({| full := full q; empty := empty q; task := t; size := sz; mutex := m' |},
            PutPost, Enqueued item)
  | PutPost =>
      let* f := sem_post (full q) in
      Done (with_full q f, Idle, Quiet)
  | GetWait =>
      let* f := sem_wait (full q) in
      Done (with_full q f, GetLock, Quiet)
  | GetLock =>
      let* m := pthread_mutex_lock (mutex q) in
      Done (with_mutex q m, GetBody, Quiet)
  | GetBody =>
      let* item := load (task q) 0 in
      let* t := shift_loop (Z.to_nat (size q - 1)) 1 (task q) in
      let sz := (size q - 1) mod SIZE_MOD in
      let* t' := store t sz NULL in
      let* m' := pthread_mutex_unlock (mutex q) in
      Done ({| full := full q; empty := empty q; task := t'; size := sz; mutex := m' |},
            GetPost item, Dequeued item)
  | GetPost item =>
      let* e := sem_post (empty q) in
      Done (with_empty q e, Idle, Quiet)
  end.

(** The queue, where each thread stands, and the history: the items in
    the order in which they entered and left the slot array. *)
Record system : Type := mkSystem {
  queue : Queue;
  threads : list pc;
  entered : list ptr;
  departed : list ptr
}.

Definition record (eff : effect) (sys : system) (q : Queue) (ts : list pc) : system :=
  match eff with
  | Quiet => {| queue := q; threads := ts; entered := entered sys; departed := departed sys |}
  | Enqueued item =>
      {| queue := q; threads := ts; entered := entered sys ++ [item]; departed := departed sys |}
  | Dequeued item =>
      {| queue := q; threads := ts; entered := entered sys; departed := departed sys ++ [item] |}
  end.

(** A step of the system: an idle thread calls [queue_put] or
    [queue_get], or a thread inside a call takes its next action. *)
Inductive step : system -> system -> Prop :=
| step_put i item sys :
    threads sys !! i = Some Idle ->
    step sys (record Quiet sys (queue sys) (<[i := PutWait item]> (threads sys)))
| step_get i sys :
    threads sys !! i = Some Idle ->
    step sys (record Quiet sys (queue sys) (<[i := GetWait]> (threads sys)))
| step_action i p q' p' eff sys :
    threads sys !! i = Some p ->
    action (queue sys) p = Done (q', p', eff) ->
    step sys (record eff sys q' (<[i := p']> (threads sys))).

(** The systems that [n] threads sharing a queue of capacity [k] can
    reach. *)
Inductive reaches (k : Z) (n : nat) : system -> Prop :=
| reach_init q :
    queue_alloc k = Some q ->
    reaches k n {| queue := q; threads := replicate n Idle; entered := []; departed := [] |}
| reach_step sys sys' :
    reaches k n sys -> step sys sys' -> reaches k n sys'.

(** A schedule: which thread moves next, and how. *)
Inductive move : Type :=
| CallPut (i : nat) (item : ptr)
| CallGet (i : nat)
| Act (i : nat).

Definition perform (sys : system) (m : move) : option system :=
  match m with
  | CallPut i item =>
      match threads sys !! i with
      | Some Idle => Some (record Quiet sys (queue sys) (<[i := PutWait item]> (threads sys)))
      | _ => None
      end
  | CallGet i =>
      match threads sys !! i with
      | Some Idle => Some (record Quiet sys (queue sys) (<[i := GetWait]> (threads sys)))
      | _ => None
      end
  | Act i =>
      match threads sys !! i with
      | Some p =>
          match action (queue sys) p with
          | Done (q', p', eff) => Some (record eff sys q' (<[i := p']> (threads sys)))
          | _ => None
          end
      | None => None
      end
  end.

Fixpoint schedule (sys : system) (moves : list move) : option system :=
  match moves with
  | [] => Some sys
  | m :: rest =>
      match perform sys m with
      | Some sys' => schedule sys' rest
      | None => None
      end
  end.

(** The whole of a call, run by a thread that is not interrupted: four
    actions. *)
Definition run_call (q : Queue) (p : pc) : result (Queue * pc) :=
  let* r1 := action q p in
  let* r2 := action (fst (fst r1)) (snd (fst r1)) in
  let* r3 := action (fst (fst r2)) (snd (fst r2)) in
  let* r4 := action (fst (fst r3)) (snd (fst r3)) in
  Done (fst (fst r4), snd (fst r4)).

(** How many threads stand where. *)
Fixpoint tally (f : pc -> Z) (ts : list pc) : Z :=
  match ts with
  | [] => 0
  | p :: rest => f p + tally f rest
  end.

(** took a free slot and has not yet filled it *)
Definition filling (p : pc) : Z :=
  match p with PutLock _ | PutBody _ => 1 | _ => 0 end.

(** filled a slot and has not yet posted [full] *)
Definition filled (p : pc) : Z :=
  match p with PutPost => 1 | _ => 0 end.

(** took an item's token and has not yet removed the item *)
Definition emptying (p : pc) : Z :=
  match p with GetLock | GetBody => 1 | _ => 0 end.

(** removed an item and has not yet posted [empty] *)
Definition emptied (p : pc) : Z :=
  match p with GetPost _ => 1 | _ => 0 end.

(** holds the mutex *)
Definition inside (p : pc) : Z :=
  match p with PutBody _ | GetBody => 1 | _ => 0 end.

(** The invariant of the shared queue. *)
Record sys_inv (k : Z) (sys : system) : Prop := mkSysInv {
  si_empty : empty (queue sys)
             = Some (k - size (queue sys) - tally filling (threads sys)
                       - tally emptied (threads sys));
  si_full : full (queue sys)
            = Some (size (queue sys) - tally filled (threads sys)
                      - tally emptying (threads sys));
  si_free : 0 <= k - size (queue sys) - tally filling (threads sys)
                   - tally emptied (threads sys);
  si_items : 0 <= size (queue sys) - tally filled (threads sys)
                    - tally emptying (threads sys);
  si_slots : Z.of_nat (length (task (queue sys))) = k;
  si_mutex : Z.b2z (mutex (queue sys)) = tally inside (threads sys);
  si_order : entered sys = departed sys ++ pending (queue sys)
}.

End Threads.

(** * http.c *)

Module Http.

Definition BUF_SIZE : Z := 1024.

(** [BUFSIZ] of <stdio.h> (glibc). *)
Definition BUFSIZ : Z := 8192.

(** Characters are [ascii]; a block of [char] is a list of them. *)
Abbreviation bytes := (list ascii).
Definition NUL : ascii := zero.
Definition lit (s : string) : bytes := list_ascii_of_string s.
Definition len (s : bytes) : Z := Z.of_nat (length s).

Definition GET : bytes := lit "getter".
Definition HEAD : bytes := lit "header".

Definition CRLF : bytes := [ascii_of_nat 13; ascii_of_nat 10].
Definition LF : bytes := [ascii_of_nat 10].

(** What a computation does: return a value, end the process through
    [exit], or run into undefined behaviour. *)
Inductive outcome (A : Type) : Type :=
| Returns (a : A)
| Exits (status : Z)
| Undefined.
Arguments Returns {A} a.
Arguments Exits {A} status.
Arguments Undefined {A}.

Definition obind {A B : Type} (o : outcome A) (k : A -> outcome B) : outcome B :=
  match o with
  | Returns a => k a
  | Exits c => Exits c
  | Undefined => Undefined
  end.

Notation "'let!' x := r 'in' k" := (obind r (fun x => k))
  (at level 10, x name, r at level 100, k at level 200).

(** ** <string.h> and <stdlib.h>

    A [char*] argument that the caller passes as a string is given by its
    characters before the terminating NUL.  A block filled from the network
    is given byte by byte, and is a string only when it holds a NUL. *)

Fixpoint is_prefix (p s : bytes) : bool :=
  match p, s with
  | [], _ => true
  | _ :: _, [] => false
  | a :: p', b :: s' => if Ascii.eqb a b then is_prefix p' s' else false
  end.

(** [strstr] on the characters of two strings: the index of the first
    occurrence of [needle], [None] for [NULL]. *)
Fixpoint strstr (haystack needle : bytes) : option nat :=
  if is_prefix needle haystack then Some O
  else match haystack with
       | [] => None
       | _ :: rest => S <$> strstr rest needle
       end.

(** The string stored in a block: its characters up to the first NUL;
    [None] when the block holds no NUL (reading it as a string runs past
    the block). *)
Fixpoint c_str (mem : bytes) : option bytes :=
  match mem with
  | [] => None
  | c :: rest => if Ascii.eqb c NUL then Some [] else cons c <$> c_str rest
  end.

(** [strstr(mem + p, needle)] as an offset into [mem]. *)
Definition strstr_at (mem : bytes) (p : Z) (needle : bytes) : outcome (option Z) :=
  if (0 <=? p) && (p <=? len mem) then
    match c_str (drop (Z.to_nat p) mem) with
    | Some s => Returns ((fun i => p + Z.of_nat i) <$> strstr s needle)
    | None => Undefined
    end
  else Undefined.

(** [strcat] into an array of [cap] characters; the result and its NUL
    must fit. *)
Definition strcat (cap : Z) (dst src : bytes) : outcome bytes :=
  if len dst + len src <? cap then Returns (dst ++ src) else Undefined.

Definition isdigit (c : ascii) : bool :=
  (48 <=? Z.of_nat (nat_of_ascii c)) && (Z.of_nat (nat_of_ascii c) <=? 57).

Definition isspace (c : ascii) : bool :=
  let n := Z.of_nat (nat_of_ascii c) in (n =? 32) || ((9 <=? n) && (n <=? 13)).

Definition digit_value (c : ascii) : Z := Z.of_nat (nat_of_ascii c) - 48.

Fixpoint skip_spaces (s : bytes) : bytes :=
  match s with
  | c :: rest => if isspace c then skip_spaces rest else s
  | [] => []
  end.

Fixpoint decimal (acc : Z) (s : bytes) : Z :=
  match s with
  | c :: rest => if isdigit c then decimal (10 * acc + digit_value c) rest else acc
  | [] => acc
  end.

(** [atoi]: white space, an optional sign, decimal digits; undefined when
    the value is not an [int]. *)
Definition atoi (s : bytes) : outcome Z :=
  let s1 := skip_spaces s in
  let v :=
    match s1 with
    | c :: rest =>
        if Ascii.eqb c "-" then - decimal 0 rest
        else if Ascii.eqb c "+" then decimal 0 rest
        else decimal 0 s1
    | [] => 0
    end in
  if (INT_MIN <=? v) && (v <=? INT_MAX) then Returns v else Undefined.

(** ** Buffer

    Modelled from the spec: [Buffer] is declared in http.h, which is not
    among the sources.  The specification describes it as "an owned,
    growable byte buffer plus a length counter"; http.c uses its fields
    [data] (a [char*]) and [length] (taken as a [size_t]).  [data] lists
    the bytes of the block the pointer designates. *)
Record Buffer : Type := mkBuffer {
  data : bytes;
  length : Z
}.

(** ** The process and the network

    The answers of the system calls are given beforehand; [log] records
    what the process did.  [max_chunk_size] is the global that
    [calc_tasks] assigns and [get_max_chunk_size] reads; its declaration
    is in http.h, and it is taken as an [int]. *)
Inductive read_result : Type :=
| Received (chunk : bytes)
| ReadFailed.

Inductive event : Type :=
| Connect (host_name : bytes) (server_port sockfd rc : Z)
| Write (sockfd : Z) (request : bytes) (result : Z)
| Close (sockfd : Z)
| Perror (msg : bytes)
| Stdout (msg : bytes)
| Stderr (msg : bytes).

Record state : Type := mkState {
  max_chunk_size : Z;          (* the global [int max_chunk_size] *)
  getaddrinfo_rc : Z;          (* what getaddrinfo returns *)
  socket_fd : Z;               (* what socket returns *)
  connect_rc : Z;              (* what connect returns on a valid socket *)
  write_rc : Z;                (* what write returns *)
  reads : list read_result;    (* what the calls of read return, in order *)
  log : list event
}.

Definition M (A : Type) : Type := state -> outcome A * state.

Definition ret {A : Type} (a : A) : M A := fun s => (Returns a, s).

Definition lift {A : Type} (o : outcome A) : M A := fun s => (o, s).

Definition exit {A : Type} (status : Z) : M A := fun s => (Exits status, s).

Definition mbind {A B : Type} (m : M A) (k : A -> M B) : M B :=
  fun s =>
    match m s with
    | (Returns a, s') => k a s'
    | (Exits c, s') => (Exits c, s')
    | (Undefined, s') => (Undefined, s')
    end.

Notation "'do' x := r 'in' k" := (mbind r (fun x => k))
  (at level 10, x name, r at level 100, k at level 200).

Definition emit (e : event) : M unit :=
  fun s =>
    (Returns tt,
     {| max_chunk_size := max_chunk_size s; getaddrinfo_rc := getaddrinfo_rc s;
        socket_fd := socket_fd s; connect_rc := connect_rc s;
        write_rc := write_rc s; reads := reads s; log := log s ++ [e] |}).

Definition set_max_chunk_size (v : Z) : M unit :=
  fun s =>
    (Returns tt,
     {| max_chunk_size := v; getaddrinfo_rc := getaddrinfo_rc s;
        socket_fd := socket_fd s; connect_rc := connect_rc s;
        write_rc := write_rc s; reads := reads s; log := log s |}).

Definition set_reads (r : list read_result) : M unit :=
  fun s =>
    (Returns tt,
     {| max_chunk_size := max_chunk_size s; getaddrinfo_rc := getaddrinfo_rc s;
        socket_fd := socket_fd s; connect_rc := connect_rc s;
        write_rc := write_rc s; reads := r; log := log s |}).

Definition get {A : Type} (f : state -> A) : M A := fun s => (Returns (f s), s).

(** ** The functions of http.c *)

(** [client_socket]: the result of [getaddrinfo] is not checked, so after
    a failed lookup [server_info] is read uninitialised; [connect] on the
    descriptor -1 of a failed [socket] returns -1. *)
Definition client_socket (host_name : bytes) (server_port : Z) : M Z :=
  do gai := get getaddrinfo_rc in
  if gai =? 0 then
    do client_sockfd := get socket_fd in
    do crc := get connect_rc in
    let rc := if client_sockfd <? 0 then -1 else crc in
    do _ := emit (Connect host_name server_port client_sockfd rc) in
    if rc =? -1 then
      do _ := emit (Perror (lit ">>Connection error with server" ++ LF)) in
      exit 1
    else ret client_sockfd
  else lift Undefined.

Definition strcmp_eq (a b : bytes) : bool :=
  if List.list_eq_dec ascii_dec a b then true else false.

(** [pack_http_request]: the packet is an array of 1024 zeroed characters
    filled by [strcat]; [page] and [range] may be [NULL]. *)
Definition pack_http_request (host : bytes) (page range : option bytes)
    (method : bytes) : outcome bytes :=
  let cat := strcat 1024 in
  let! p := (if strcmp_eq method HEAD then cat [] (lit "HEAD /")
             else cat [] (lit "GET /")) in
  let! pg := (match page with Some pg => Returns pg | None => Undefined end) in
  let! p := cat p pg in
  let! p := cat p (lit " HTTP/1.0" ++ CRLF) in
  let! p := cat p (lit "Host: ") in
  let! p := cat p host in
  let! p := cat p CRLF in
  let! p := (match range with
             | Some r =>
                 if 0 <? len r then
                   let! p := cat p (lit "Range: bytes=") in
                   let! p := cat p r in
                   cat p CRLF
                 else Returns p
             | None => Returns p
             end) in
  let! p := cat p (lit "User-Agent: ") in
  let! p := cat p (lit "getter") in
  cat p (CRLF ++ CRLF).

(** [send_http_request] *)
Definition send_http_request (client_sockfd : Z) (http_request : bytes) : M Z :=
  do result := get write_rc in
  do _ := emit (Write client_sockfd http_request result) in
  if result <? 0 then
    do _ := emit (Stdout (lit ">>Send http request error!" ++ LF)) in
    exit 1
  else ret result.

(** [realloc(data, n)] keeps the first [n] bytes; new bytes are
    indeterminate (NUL here, they are overwritten at once). *)
Definition realloc (data : bytes) (n : Z) : bytes :=
  take (Z.to_nat n) data ++ replicate (Z.to_nat n - Datatypes.length data)%nat NUL.

(** [memcpy(dst + off, src, |src|)] *)
Definition memcpy (dst : bytes) (off : Z) (src : bytes) : outcome bytes :=
  if (0 <=? off) && (off + len src <=? len dst) then
    Returns (take (Z.to_nat off) dst ++ src
             ++ drop (Z.to_nat (off + len src)) dst)
  else Undefined.

(** The loop [while ((read_count = read(fd, new_read_data, BUFSIZ)) > 0)]
    over the answers of [read]: a call delivers at most [BUFSIZ] bytes,
    returns 0 when the peer has closed (no answer left) and -1 on error.
    The second component is what remains to be read. *)
Fixpoint read_loop (answers : list read_result) (response : Buffer)
    : outcome Buffer * list read_result :=
  match answers with
  | [] => (Returns response, [])
  | ReadFailed :: rest => (Returns response, rest)
  | Received chunk :: rest =>
      let new_read_data := take (Z.to_nat BUFSIZ) chunk in
      let read_count := len new_read_data in
      if read_count >? 0 then
        let length' := (length response + read_count) mod SIZE_MOD in
        let data' := realloc (data response) length' in
        match memcpy data' (length' - read_count) new_read_data with
        | Returns data'' => read_loop rest {| data := data''; length := length' |}
        | _ => (Undefined, rest)
        end
      else (Returns response, rest)
  end.

(** Steps 3 of [http_query] and of [get_num_tasks]: a fresh [Buffer] of
    [BUFSIZ] zeroed bytes and length 0, filled by the read loop. *)
Definition receive_all : M Buffer :=
  let response := {| data := replicate (Z.to_nat BUFSIZ) NUL; length := 0 |} in
  do answers := get reads in
  let r := read_loop answers response in
  do _ := set_reads (snd r) in
  lift (fst r).

(** [http_query]; the result is the pointer [response], never [NULL]. *)
Definition http_query (host : bytes) (page range : option bytes) (port : Z)
    : M (option Buffer) :=
  do client_sockfd := client_socket host port in
  do http_request := lift (pack_http_request host page range GET) in
  do _ := send_http_request client_sockfd http_request in
  do response := receive_all in
  do _ := emit (Close client_sockfd) in
  ret (Some response).

(** [http_get_content]: the result is an offset into [response->data]. *)
Definition http_get_content (response : Buffer) : outcome Z :=
  let! header_end := strstr_at (data response) 0 (CRLF ++ CRLF) in
  match header_end with
  | Some e => Returns (e + 4)
  | None => Returns 0
  end.

(** [strncpy(host, url, BUF_SIZE)] followed by [strstr(host, "/")]: with
    [BUF_SIZE] or more characters in [url], [host] holds no NUL and is not
    a string.  Otherwise the result is the index of the first '/'. *)
Definition split_url (url : bytes) : outcome (option nat) :=
  if BUF_SIZE <=? len url then Undefined
  else Returns (strstr url (lit "/")).

(** [http_url] *)
Definition http_url (url : bytes) (range : option bytes) : M (option Buffer) :=
  do page := lift (split_url url) in
  match page with
  | Some i =>
      let host := take i url in
      let page := drop (S i) url in
      http_query host (Some page) range 80
  | None =>
      do _ := emit (Stderr (lit "could not split url into host/page " ++ url ++ LF)) in
      ret None
  end.

(** The loop [for (int i = 0; content_length[i] != 0; ++i)] of
    [get_content_size_by_head]; [s] lists the characters from
    [content_length[i]] on.  Digits go to [length[j]], an array of
    [BUF_SIZE] characters; [++i] overflows at [INT_MAX].  The result is the
    digits collected and [j]. *)
Fixpoint collect_digits (s : bytes) (i : Z) (length : bytes) (j : Z)
    : outcome (bytes * Z) :=
  match s with
  | [] => Undefined
  | c :: rest =>
      if Ascii.eqb c NUL then Returns (length, j)
      else if isdigit c then
        if j <? BUF_SIZE then
          if INT_MAX <=? i then Undefined
          else collect_digits rest (i + 1) (length ++ [c]) (j + 1)
        else Undefined
      else if INT_MAX <=? i then Undefined
      else collect_digits rest (i + 1) length j
  end.

(** [get_content_size_by_head]; it writes a NUL into the buffer, so the
    buffer is returned with the result. *)
Definition get_content_size_by_head (response : Buffer) : outcome (Z * Buffer) :=
  let! content_length := strstr_at (data response) 0 (lit "Content-Length:") in
  match content_length with
  | None => Undefined
  | Some p =>
      let! content_length_end := strstr_at (data response) p LF in
      match content_length_end with
      | None => Undefined
      | Some e =>
          let data' := <[Z.to_nat e := NUL]> (data response) in
          let! lj := collect_digits (drop (Z.to_nat p) data') 0 [] 0 in
          if snd lj <? BUF_SIZE then
            let! content_size := atoi (fst lj) in
            Returns (content_size, {| data := data'; length := length response |})
          else Undefined
      end
  end.

(** [calc_tasks]; [is_accept_ranges] is the pointer returned by [strstr].
    Integer division truncates; it is undefined for a zero divisor and for
    [INT_MIN / -1]. *)
Definition calc_tasks (is_accept_ranges : option Z) (content_size threads : Z) : M Z :=
  let tasks := threads in
  match is_accept_ranges with
  | Some _ =>
      if (tasks =? 0) || ((content_size =? INT_MIN) && (tasks =? -1))
      then lift Undefined
      else
        do _ := set_max_chunk_size (Z.quot content_size tasks) in
        ret tasks
  | None =>
      do _ := set_max_chunk_size content_size in
      ret 1
  end.

(** Step 4 of [get_num_tasks]:
    [strstr(response->data, "Accept-Ranges: bytes")]. *)
Definition is_accept_ranges (response : Buffer) : outcome (option Z) :=
  strstr_at (data response) 0 (lit "Accept-Ranges: bytes").

(** [get_num_tasks] *)
Definition get_num_tasks (url : bytes) (threads : Z) : M Z :=
  do page := lift (split_url url) in
  do hp := (match page with
            | Some i => ret (take i url, Some (drop (S i) url))
            | None =>
                do _ := emit (Stderr (lit "could not split url into host/page "
                                      ++ url ++ LF)) in
                ret (url, None)
            end) in
  let host := fst hp in
  let page := snd hp in
  do client_sockfd := client_socket host 80 in
  do head_http_request := lift (pack_http_request host page (Some []) HEAD) in
  do _ := send_http_request client_sockfd head_http_request in
  do response := receive_all in
  do accept := lift (is_accept_ranges response) in
  do cs := lift (get_content_size_by_head response) in
  let content_size := fst cs in
  do tasks := calc_tasks accept content_size threads in
  do _ := emit (Close client_sockfd) in
  ret tasks.

(** [get_max_chunk_size] *)
Definition get_max_chunk_size : M Z := get max_chunk_size.

End Http.

(** * Vocabulary of the statements, and sample values *)

Section QueueSamples.
Import Queue Threads.

(** The statement of the specification for [queue_alloc]: a capacity that
    is not positive is refused. *)
Definition alloc_refuses_nonpositive : Prop :=
  forall capacity : Z, is_int capacity -> capacity <= 0 -> queue_alloc capacity = None.

Definition fresh3 : Queue :=
  {| full := Some 0; empty := Some 3; task := [0; 0; 0]; size := 0; mutex := false |}.

Definition filled3 : Queue :=
  {| full := Some 3; empty := Some 0; task := [11; 22; 33]; size := 3; mutex := false |}.

Definition one_of_two : Queue :=
  {| full := Some 1; empty := Some 1; task := [7; 0]; size := 1; mutex := false |}.

Definition fresh2 : Queue :=
  {| full := Some 0; empty := Some 2; task := [0; 0]; size := 0; mutex := false |}.

(** Two threads on a queue of capacity 1: thread 0 puts 5 and then 6,
    thread 1 gets twice; the second put can only pass its wait after the
    first get has posted. *)
Definition handoff : list move :=
  [CallGet 1; CallPut 0 5; Act 0; Act 0; Act 0; Act 0;
   CallPut 0 6; Act 1; Act 1; Act 1; Act 1; Act 0; Act 0; Act 0; Act 0;
   CallGet 1; Act 1; Act 1; Act 1; Act 1].

Definition two_threads : system :=
  {| queue := {| full := Some 0; empty := Some 1; task := [0]; size := 0;
                 mutex := false |};
     threads := [Idle; Idle]; entered := []; departed := [] |}.

Definition handed_over : system :=
  {| queue := {| full := Some 0; empty := Some 1; task := [0]; size := 0;
                 mutex := false |};
     threads := [Idle; Idle]; entered := [5; 6]; departed := [5; 6] |}.

(** A queue of capacity 2 in use: two items in, one out, one more in. *)
Definition mixed_ops : list op := [Put 4; Put 5; Get; Put 6].

Definition after_mixed_ops : Queue :=
  {| full := Some 2; empty := Some 0; task := [5; 6]; size := 2; mutex := false |}.

(** Capacity 1, two threads: thread 0 has put 5 and waits to put 6, thread
    1 does nothing. *)
Definition producer_waits : list move :=
  [CallPut 0 5; Act 0; Act 0; Act 0; Act 0; CallPut 0 6].

Definition waiting_producer : system :=
  {| queue := {| full := Some 1; empty := Some 0; task := [5]; size := 1;
                 mutex := false |};
     threads := [PutWait 6; Idle]; entered := [5]; departed := [] |}.

(** Capacity 1, two threads: thread 0 is in the body of [queue_put],
    thread 1 has called [queue_get]. *)
Definition entering_put : list move := [CallGet 1; CallPut 0 5; Act 0; Act 0].

Definition inside_put : system :=
  {| queue := {| full := Some 0; empty := Some 0; task := [0]; size := 0;
                 mutex := true |};
     threads := [PutBody 5; GetWait]; entered := []; departed := [] |}.

End QueueSamples.

Section HttpVocabulary.
Import Http.

(** [needle] occurs in [text] at index [i]; first occurrence; occurrence. *)
Definition occurs_at (needle text : bytes) (i : nat) : Prop :=
  exists pre post, text = pre ++ needle ++ post /\ Datatypes.length pre = i.

Definition first_at (needle text : bytes) (i : nat) : Prop :=
  occurs_at needle text i /\ forall j, (j < i)%nat -> ~ occurs_at needle text j.

Definition occurs (needle text : bytes) : Prop := exists i, occurs_at needle text i.

(** The block seen through the pointer [http_get_content] returns. *)
Definition content (response : Buffer) : outcome bytes :=
  let! p := http_get_content response in
  Returns (drop (Z.to_nat p) (data response)).

(** In the words of the specification: the header section is the text
    before the first blank line, and its header lines are the pieces
    between CRLF. *)
Definition header_section (text : bytes) : bytes :=
  match strstr text (CRLF ++ CRLF) with
  | Some i => take i text
  | None => text
  end.

Fixpoint lines_from (cur s : bytes) : list bytes :=
  match s with
  | [] => [cur]
  | c :: rest =>
      match rest with
      | d :: rest' =>
          if Ascii.eqb c (ascii_of_nat 13) && Ascii.eqb d (ascii_of_nat 10)
          then cur :: lines_from [] rest'
          else lines_from (cur ++ [c]) rest
      | [] => [cur ++ [c]]
      end
  end.

Definition has_header_line (line text : bytes) : bool :=
  existsb (strcmp_eq line) (lines_from [] (header_section text)).

Definition ACCEPT_RANGES : bytes := lit "Accept-Ranges: bytes".

Definition text_of (response : Buffer) : bytes :=
  match c_str (data response) with Some t => t | None => [] end.

Definition CONTENT_LENGTH : bytes := lit "Content-Length:".

(** The value of a run of decimal digits. *)
Definition digits_value (ds : bytes) : Z :=
  fold_left (fun acc c => 10 * acc + digit_value c) ds 0.

Definition SLASH : bytes := lit "/".

Definition split_failure (url : bytes) : event :=
  Stderr (lit "could not split url into host/page " ++ url ++ LF).

(** The request that [pack_http_request] writes, piece by piece. *)
Definition request_verb (method : bytes) : bytes :=
  if strcmp_eq method HEAD then lit "HEAD /" else lit "GET /".

Definition range_header (range : option bytes) : bytes :=
  match range with
  | Some r => if 0 <? len r then lit "Range: bytes=" ++ r ++ CRLF else []
  | None => []
  end.

Definition request_text (host page : bytes) (range : option bytes)
    (method : bytes) : bytes :=
  request_verb method ++ page ++ lit " HTTP/1.0" ++ CRLF
  ++ lit "Host: " ++ host ++ CRLF
  ++ range_header range
  ++ lit "User-Agent: getter" ++ CRLF ++ CRLF.

(** What one call of [read] can deliver before the end of the stream. *)
Definition well_sized (chunk : bytes) : Prop := 0 < len chunk <= BUFSIZ.

(** The answers at which the read loop ends: the peer has closed, or
    [read] returns 0 or -1. *)
Definition stops (rest : list read_result) : Prop :=
  match rest with
  | [] => True
  | ReadFailed :: _ => True
  | Received chunk :: _ => chunk = []
  end.

(** The system calls of an exchange succeed: the lookup, [socket],
    [connect] and [write] (which may write any part of the request). *)
Definition cooperative (s : state) : Prop :=
  getaddrinfo_rc s = 0 /\ 0 <= socket_fd s /\ connect_rc s <> -1 /\ 0 <= write_rc s.

(** The calls of [read] deliver [chunks], then the loop ends at [rest]. *)
Definition delivers (s : state) (chunks : list bytes) (rest : list read_result) : Prop :=
  reads s = map Received chunks ++ rest
  /\ Forall well_sized chunks
  /\ stops rest
  /\ len (concat chunks) < SIZE_MOD.

(** The header text has a [Content-Length] line, complete and short enough
    for an [int] to index it, whose digits write the number [value], an
    [int]. *)
Definition announces (text : bytes) (value : Z) : Prop :=
  exists pre line rest,
    text = pre ++ CONTENT_LENGTH ++ line ++ LF ++ rest
    /\ first_at CONTENT_LENGTH text (Datatypes.length pre)
    /\ Forall (fun c => c <> ascii_of_nat 10) line
    /\ len (CONTENT_LENGTH ++ line) <= INT_MAX
    /\ len (filter (fun c => isdigit c = true) line) < BUF_SIZE
    /\ digits_value (filter (fun c => isdigit c = true) line) = value
    /\ value <= INT_MAX.

(** The buffer after the read loop has taken [chunks]. *)
Definition received (chunks : list bytes) : Buffer :=
  match chunks with
  | [] => {| data := replicate (Z.to_nat BUFSIZ) NUL; length := 0 |}
  | _ :: _ => {| data := concat chunks; length := len (concat chunks) |}
  end.

End HttpVocabulary.

Section HttpSamples.
Import Http.

Definition quiet : state :=
  {| max_chunk_size := 0; getaddrinfo_rc := 0; socket_fd := 3; connect_rc := 0;
     write_rc := 64; reads := []; log := [] |}.

Definition silent_server : state :=
  {| max_chunk_size := 0; getaddrinfo_rc := 0; socket_fd := 3; connect_rc := 0;
     write_rc := 57; reads := []; log := [] |}.

Definition unreachable_server : state :=
  {| max_chunk_size := 0; getaddrinfo_rc := 0; socket_fd := 3; connect_rc := -1;
     write_rc := 57; reads := []; log := [] |}.

Definition small_response : Buffer :=
  {| data := lit "HTTP/1.0 200 OK" ++ CRLF ++ lit "Content-Length: 4" ++ CRLF
             ++ CRLF ++ lit "body" ++ [NUL];
     length := 42 |}.

(** A response that mentions the string in its body only. *)
Definition ranges_in_body : Buffer :=
  {| data := lit "HTTP/1.0 200 OK" ++ CRLF ++ lit "Content-Length: 20" ++ CRLF
             ++ CRLF ++ lit "Accept-Ranges: bytes" ++ [NUL];
     length := 59 |}.

(** A response with another header whose name ends in the same words. *)
Definition ranges_in_other_header : Buffer :=
  {| data := lit "HTTP/1.0 200 OK" ++ CRLF ++ lit "X-Accept-Ranges: bytes" ++ CRLF
             ++ CRLF ++ [NUL];
     length := 43 |}.

Definition ranged_response : Buffer :=
  {| data := lit "HTTP/1.0 200 OK" ++ CRLF ++ lit "Accept-Ranges: bytes" ++ CRLF
             ++ lit "Content-Length: 1000" ++ CRLF ++ CRLF ++ [NUL];
     length := 63 |}.

(** What the read loop leaves when the server closes without sending
    anything: the zeroed block, an empty string. *)
Definition empty_response : Buffer :=
  {| data := replicate (Z.to_nat BUFSIZ) NUL; length := 0 |}.

(** A response of a server that sends no [Content-Length]. *)
Definition no_length_response : Buffer :=
  {| data := lit "HTTP/1.0 200 OK" ++ CRLF ++ lit "Accept-Ranges: bytes" ++ CRLF
             ++ CRLF ++ [NUL];
     length := 41 |}.

(** The example of the specification and the same header cut before its
    line end. *)
Definition length_54321 : Buffer :=
  {| data := lit "Content-Length: 54321" ++ CRLF ++ [NUL]; length := 23 |}.

Definition length_54321_open : Buffer :=
  {| data := lit "Content-Length: 54321" ++ [NUL]; length := 21 |}.

Definition after_message : state :=
  {| max_chunk_size := 0; getaddrinfo_rc := 0; socket_fd := 3; connect_rc := 0;
     write_rc := 64; reads := [];
     log := [split_failure (lit "example.com")] |}.

Definition after_connect : state :=
  {| max_chunk_size := 0; getaddrinfo_rc := 0; socket_fd := 3; connect_rc := 0;
     write_rc := 64; reads := [];
     log := [split_failure (lit "example.com");
             Connect (lit "example.com") 80 3 0] |}.

(** A server that answers the probe with range support and 1000 bytes of
    content, once with a NUL after the header text and once without. *)
Definition probe_text : bytes :=
  lit "HTTP/1.0 200 OK" ++ CRLF ++ lit "Accept-Ranges: bytes" ++ CRLF
  ++ lit "Content-Length: 1000" ++ CRLF ++ CRLF.

Definition ranged_server : state :=
  {| max_chunk_size := 0; getaddrinfo_rc := 0; socket_fd := 3; connect_rc := 0;
     write_rc := 50; reads := [Received (probe_text ++ [NUL])]; log := [] |}.

Definition ranged_server_no_nul : state :=
  {| max_chunk_size := 0; getaddrinfo_rc := 0; socket_fd := 3; connect_rc := 0;
     write_rc := 50; reads := [Received probe_text]; log := [] |}.

(** A server that answers a GET in two reads and closes. *)
Definition two_reads : state :=
  {| max_chunk_size := 0; getaddrinfo_rc := 0; socket_fd := 3; connect_rc := 0;
     write_rc := 55;
     reads := [Received (lit "HTTP/1.0 200 OK" ++ CRLF ++ CRLF);
               Received (lit "hello")];
     log := [] |}.

(** An answer with a NUL among its header bytes, and the buffer that
    [http_query] returns from [two_reads]: the bytes received and nothing
    after them. *)
Definition nul_in_header : Buffer :=
  {| data := lit "HTTP/1.0 200 OK" ++ CRLF ++ lit "X: " ++ [NUL] ++ CRLF ++ CRLF
             ++ lit "body";
     length := 29 |}.

Definition unterminated_response : Buffer :=
  {| data := lit "HTTP/1.0 200 OK" ++ CRLF ++ CRLF ++ lit "hello"; length := 24 |}.

(** Content lengths: one with a stray digit group, one beyond [INT_MAX]. *)
Definition length_spaced : Buffer :=
  {| data := lit "Host: x:8080" ++ CRLF ++ lit "Content-Length: 12 34" ++ CRLF
             ++ lit "X: 99" ++ CRLF ++ [NUL];
     length := 44 |}.

Definition length_3e9 : Buffer :=
  {| data := lit "Content-Length: 3000000000" ++ CRLF ++ [NUL]; length := 28 |}.

Definition spaced_pre : bytes := lit "Host: x:8080" ++ CRLF.

Definition spaced_line : bytes := lit " 12 34" ++ [ascii_of_nat 13].

Definition spaced_rest : bytes := lit "X: 99" ++ CRLF.

(** A [Content-Length] line of 1024 digits. *)
Definition length_flood : Buffer :=
  {| data := lit "Content-Length:" ++ replicate 1024 "1"%char ++ LF ++ [NUL];
     length := 1040 |}.

End HttpSamples.

(** * Properties of queue.c *)

Section QueueProperties.
Import Queue.

Local Ltac unfold_consts :=
  unfold INT_MAX, INT_MIN, SIZE_MOD, PTRDIFF_MAX, SEM_VALUE_MAX, UINT_MOD in *.

Lemma load_app_middle (pre : list ptr) (a : ptr) (post : list ptr) (i : Z) :
  Z.of_nat (length pre) = i -> load (pre ++ a :: post) i = Done a.
Proof.
  intros Hi. unfold load.
  destruct (Z.leb_spec 0 i); [|lia].
  replace (Z.to_nat i) with (length pre + 0)%nat by lia.
  rewrite lookup_app_r by lia.
  replace (length pre + 0 - length pre)%nat with 0%nat by lia. reflexivity.
Qed.

Lemma store_app_middle (pre : list ptr) (a v : ptr) (post : list ptr) (i : Z) :
  Z.of_nat (length pre) = i -> store (pre ++ a :: post) i v = Done (pre ++ v :: post).
Proof.
  intros Hi. unfold store.
  rewrite length_app. simpl length.
  destruct (Z.leb_spec 0 i); [|lia].
  destruct (Z.ltb_spec i (Z.of_nat (length pre + S (length post)))); [|lia].
  simpl. f_equal.
  replace (Z.to_nat i) with (length pre + 0)%nat by lia.
  rewrite insert_app_r. reflexivity.
Qed.

(** The shifting loop of [queue_get] moves the items after the head one
    slot down and leaves the remaining slots as they are. *)
Lemma shift_loop_spec (mid pre : list ptr) (a : ptr) (rest : list ptr) (i : Z) :
  Z.of_nat (length pre) = i - 1 ->
  i + Z.of_nat (length mid) <= INT_MAX ->
  exists v, shift_loop (length mid) i (pre ++ a :: mid ++ rest)
            = Done (pre ++ mid ++ v :: rest).
Proof.
  revert pre a i. induction mid as [|b mid IH]; intros pre a i Hpre Hmax.
  - exists a. reflexivity.
  - cbn [length shift_loop].
    replace (pre ++ a :: (b :: mid) ++ rest)
      with ((pre ++ [a]) ++ b :: mid ++ rest) by (rewrite <- app_assoc; reflexivity).
    rewrite load_app_middle by (rewrite length_app; simpl; lia).
    cbn [bind].
    rewrite <- app_assoc. cbn [app].
    rewrite (store_app_middle pre a b) by lia.
    cbn [bind].
    destruct (Z.leb_spec INT_MAX i) as [Hge|_].
    { simpl length in Hmax. lia. }
    replace (pre ++ b :: b :: mid ++ rest)
      with ((pre ++ [b]) ++ b :: mid ++ rest) by (rewrite <- app_assoc; reflexivity).
    destruct (IH (pre ++ [b]) b (i + 1)) as [v Hv].
    + rewrite length_app. simpl. lia.
    + simpl length in Hmax. lia.
    + exists v. rewrite Hv, <- app_assoc. reflexivity.
Qed.

Lemma queue_alloc_inv (k : Z) (q : Queue) :
  0 <= k <= INT_MAX -> queue_alloc k = Some q -> inv k q /\ size q = 0.
Proof.
  intros Hk Hq. unfold queue_alloc in Hq. injection Hq as <-.
  split; [|reflexivity].
  assert (Hbytes : (8 * (k mod SIZE_MOD)) mod SIZE_MOD = 8 * k).
  { unfold_consts. rewrite (Z.mod_small k) by lia. apply Z.mod_small. lia. }
  constructor; cbn [full empty task size mutex].
  - reflexivity.
  - unfold sem_init. unfold_consts. rewrite Z.mod_small by lia.
    destruct (Z.leb_spec k 2147483647); [|lia]. f_equal. lia.
  - lia.
  - unfold malloc_slots. rewrite Hbytes.
    destruct (Z.leb_spec (8 * k) PTRDIFF_MAX) as [_|Hgt].
    + rewrite length_replicate.
      replace (8 * k) with (k * 8) by lia. rewrite Z.div_mul by lia. lia.
    + unfold_consts. lia.
  - reflexivity.
Qed.

Lemma pending_split (k : Z) (q : Queue) :
  inv k q ->
  exists rest, task q = pending q ++ rest
    /\ Z.of_nat (length (pending q)) = size q
    /\ Z.of_nat (length rest) = k - size q.
Proof.
  intros [_ _ Hs Hl _]. exists (drop (Z.to_nat (size q)) (task q)).
  unfold pending. rewrite take_drop. split; [reflexivity|].
  rewrite length_take, length_drop. lia.
Qed.

Lemma queue_put_done (k : Z) (q : Queue) (item : ptr) :
  k <= INT_MAX -> inv k q -> size q < k ->
  exists q', queue_put q item = Done q'
    /\ inv k q' /\ size q' = size q + 1 /\ pending q' = pending q ++ [item].
Proof.
  intros Hk Hinv Hlt.
  destruct (pending_split k q Hinv) as (rest & Ht & Hlp & Hlr).
  destruct Hinv as [Hf He Hs Hl Hm].
  destruct rest as [|r rest]; [simpl in Hlr; lia|].
  unfold queue_put. rewrite He, Hf, Hm, Ht.
  unfold sem_wait. destruct (Z.ltb_spec 0 (k - size q)); [|lia].
  cbn [bind pthread_mutex_lock].
  rewrite store_app_middle by assumption.
  cbn [bind pthread_mutex_unlock sem_post].
  destruct (Z.ltb_spec (size q) SEM_VALUE_MAX) as [_|Hge]; [|unfold_consts; lia].
  assert (Hsz : (size q + 1) mod SIZE_MOD = size q + 1).
  { apply Z.mod_small. unfold_consts. lia. }
  eexists. split; [reflexivity|].
  assert (Hlen : Z.of_nat (length (pending q ++ item :: rest)) = k).
  { rewrite <- Hl, Ht, !length_app. simpl. lia. }
  split; [|split].
  - constructor; cbn [full empty task size mutex]; rewrite ?Hsz.
    + reflexivity.
    + f_equal. lia.
    + lia.
    + exact Hlen.
    + reflexivity.
  - cbn [size]. exact Hsz.
  - unfold pending at 1. cbn [size task]. rewrite Hsz.
    replace (pending q ++ item :: rest) with ((pending q ++ [item]) ++ rest)
      by (rewrite <- app_assoc; reflexivity).
    apply take_app_length'. rewrite length_app. simpl. lia.
Qed.

Lemma queue_put_blocked (k : Z) (q : Queue) (item : ptr) :
  inv k q -> size q = k -> queue_put q item = Blocked.
Proof.
  intros [Hf He Hs Hl Hm] Hfull. unfold queue_put. rewrite He.
  unfold sem_wait. destruct (Z.ltb_spec 0 (k - size q)); [lia|]. reflexivity.
Qed.

Lemma queue_get_done (k : Z) (q : Queue) :
  k <= INT_MAX -> inv k q -> 0 < size q ->
  exists item q', queue_get q = Done (item, q')
    /\ inv k q' /\ size q' = size q - 1 /\ pending q = item :: pending q'.
Proof.
  intros Hk Hinv Hpos.
  destruct (pending_split k q Hinv) as (rest & Ht & Hlp & Hlr).
  destruct Hinv as [Hf He Hs Hl Hm].
  destruct (pending q) as [|x xs] eqn:Hp; [simpl in Hlp; lia|].
  simpl length in Hlp.
  unfold queue_get. rewrite Hf, He, Hm, Ht.
  unfold sem_wait. destruct (Z.ltb_spec 0 (size q)); [|lia].
  cbn [bind pthread_mutex_lock].
  change ((x :: xs) ++ rest) with ([] ++ x :: xs ++ rest).
  rewrite (load_app_middle [] x (xs ++ rest) 0) by reflexivity.
  cbn [bind].
  replace (Z.to_nat (size q - 1)) with (length xs) by lia.
  destruct (shift_loop_spec xs [] x rest 1) as [v Hv]; [reflexivity|lia|].
  rewrite Hv.
  cbn [bind app].
  assert (Hsz : (size q - 1) mod SIZE_MOD = size q - 1).
  { apply Z.mod_small. unfold_consts. lia. }
  rewrite Hsz.
  rewrite store_app_middle by lia.
  cbn [bind pthread_mutex_unlock sem_post].
  destruct (Z.ltb_spec (k - size q) SEM_VALUE_MAX) as [_|Hge]; [|unfold_consts; lia].
  exists x. eexists. split; [reflexivity|].
  assert (Hlen : Z.of_nat (length (xs ++ NULL :: rest)) = k).
  { rewrite <- Hl, Ht, !length_app. simpl. lia. }
  split; [|split].
  - constructor; cbn [full empty task size mutex].
    + reflexivity.
    + f_equal. lia.
    + lia.
    + exact Hlen.
    + reflexivity.
  - reflexivity.
  - f_equal. unfold pending. cbn [size task]. symmetry.
    apply take_app_length'. lia.
Qed.

Lemma queue_get_blocked (k : Z) (q : Queue) :
  inv k q -> size q = 0 -> queue_get q = Blocked.
Proof.
  intros [Hf He Hs Hl Hm] Hz. unfold queue_get. rewrite Hf, Hz. reflexivity.
Qed.

Lemma queue_put_inv (k : Z) (q q' : Queue) (item : ptr) :
  k <= INT_MAX -> inv k q -> queue_put q item = Done q' ->
  inv k q' /\ size q < k /\ size q' = size q + 1 /\ pending q' = pending q ++ [item].
Proof.
  intros Hk Hinv Hput.
  destruct (Z.eq_dec (size q) k) as [Heq|Hne].
  - rewrite (queue_put_blocked k q item Hinv Heq) in Hput. discriminate.
  - assert (Hlt : size q < k) by (destruct Hinv; lia).
    destruct (queue_put_done k q item Hk Hinv Hlt) as (q1 & Hq1 & H1 & H2 & H3).
    rewrite Hq1 in Hput. injection Hput as <-. auto.
Qed.

Lemma queue_get_inv (k : Z) (q q' : Queue) (item : ptr) :
  k <= INT_MAX -> inv k q -> queue_get q = Done (item, q') ->
  inv k q' /\ 0 < size q /\ size q' = size q - 1 /\ pending q = item :: pending q'.
Proof.
  intros Hk Hinv Hget.
  destruct (Z.eq_dec (size q) 0) as [Heq|Hne].
  - rewrite (queue_get_blocked k q Hinv Heq) in Hget. discriminate.
  - assert (Hpos : 0 < size q) by (destruct Hinv; lia).
    destruct (queue_get_done k q Hk Hinv Hpos) as (x & q1 & Hq1 & H1 & H2 & H3).
    rewrite Hq1 in Hget. injection Hget as <- <-. auto.
Qed.

Lemma reachable_inv (k : Z) (q : Queue) :
  0 <= k <= INT_MAX -> reachable k q -> inv k q.
Proof.
  intros Hk Hr. induction Hr as [q Ha|q item q' _ IH Hput|q item q' _ IH Hget].
  - apply (queue_alloc_inv k q Hk Ha).
  - apply (queue_put_inv k q q' item); [lia|assumption..].
  - apply (queue_get_inv k q q' item); [lia|assumption..].
Qed.

Lemma put_all_inv (k : Z) (items : list ptr) (q q1 : Queue) :
  k <= INT_MAX -> inv k q -> put_all q items = Done q1 ->
  inv k q1 /\ pending q1 = pending q ++ items
  /\ size q1 = size q + Z.of_nat (length items).
Proof.
  intros Hk. revert q. induction items as [|a items IH]; intros q Hinv Hput.
  - simpl in Hput. injection Hput as <-. rewrite app_nil_r. simpl. auto with zarith.
  - simpl in Hput. destruct (queue_put q a) as [q'| |] eqn:Hq'; try discriminate.
    simpl in Hput.
    destruct (queue_put_inv k q q' a Hk Hinv Hq') as (Hinv' & _ & Hsz & Hpend).
    destruct (IH q' Hinv' Hput) as (H1 & H2 & H3).
    split; [assumption|]. split.
    + rewrite H2, Hpend, <- app_assoc. reflexivity.
    + rewrite H3, Hsz. simpl length. lia.
Qed.

Lemma put_all_done (k : Z) (items : list ptr) (q : Queue) :
  k <= INT_MAX -> inv k q -> size q + Z.of_nat (length items) <= k ->
  exists q1, put_all q items = Done q1.
Proof.
  intros Hk. revert q. induction items as [|a items IH]; intros q Hinv Hroom.
  - exists q. reflexivity.
  - simpl length in Hroom.
    destruct (queue_put_done k q a Hk Hinv) as (q' & Hq' & Hinv' & Hsz & _); [lia|].
    destruct (IH q' Hinv') as [q1 Hq1]; [lia|].
    exists q1. simpl. rewrite Hq'. exact Hq1.
Qed.

Lemma get_n_pending (k : Z) (xs : list ptr) (q : Queue) :
  k <= INT_MAX -> inv k q -> pending q = xs ->
  exists q2, get_n q (length xs) = Done (xs, q2) /\ inv k q2 /\ size q2 = 0.
Proof.
  intros Hk. revert q. induction xs as [|x xs IH]; intros q Hinv Hp.
  - exists q. simpl. split; [reflexivity|]. split; [assumption|].
    destruct (pending_split k q Hinv) as (rest & _ & Hlp & _).
    rewrite Hp in Hlp. simpl in Hlp. lia.
  - destruct (pending_split k q Hinv) as (rest & _ & Hlp & _).
    rewrite Hp in Hlp. simpl length in Hlp.
    destruct (queue_get_done k q Hk Hinv) as (y & q' & Hget & Hinv' & Hsz & Hpend); [lia|].
    rewrite Hp in Hpend. injection Hpend as <- Hxs.
    destruct (IH q' Hinv' (eq_sym Hxs)) as (q2 & Hq2 & Hinv2 & Hz).
    exists q2. simpl. rewrite Hget. cbn [bind snd fst]. rewrite Hq2.
    cbn [bind snd fst]. auto.
Qed.

(** C2. The queue is strict FIFO.  For a queue of capacity [k] built by the
    program and a sequence [items] whose [queue_put] calls complete with no
    [queue_get] in between, the following [queue_get] calls return the items
    that were waiting, then [items], in insertion order, each exactly once;
    on a queue that held nothing, [length items] calls return exactly
    [items].  Each [queue_get] returns the head and removes it.  The puts
    complete whenever the free slots suffice. *)
Theorem queue_fifo (k : Z) (q q1 : Queue) (items : list ptr) :
  0 < k <= INT_MAX ->
  reachable k q ->
  put_all q items = Done q1 ->
  (size q = 0 ->
     exists q2, get_n q1 (length items) = Done (items, q2) /\ size q2 = 0)
  /\ (exists q2, get_n q1 (length (pending q ++ items))
                 = Done (pending q ++ items, q2) /\ size q2 = 0)
  /\ (forall item q', queue_get q1 = Done (item, q') ->
        pending q ++ items = item :: pending q')
  /\ (forall more, size q1 + Z.of_nat (length more) <= k ->
        exists q', put_all q1 more = Done q').
Proof.
  intros Hk Hreach Hput.
  assert (Hinv : inv k q) by (apply reachable_inv; [lia|assumption]).
  destruct (put_all_inv k items q q1) as (Hinv1 & Hpend1 & Hsz1); [lia|assumption..|].
  destruct (get_n_pending k (pending q ++ items) q1) as (q2 & Hq2 & _ & Hz);
    [lia|assumption..|].
  split; [|split; [|split]].
  - intros Hempty.
    assert (Hnil : pending q = []).
    { unfold pending. rewrite Hempty. reflexivity. }
    rewrite Hnil in Hq2. simpl in Hq2. eauto.
  - eauto.
  - intros item q' Hget.
    destruct (queue_get_inv k q1 q' item) as (_ & _ & _ & Hp); [lia|assumption..|].
    rewrite <- Hpend1. exact Hp.
  - intros more Hroom. apply (put_all_done k more q1); [lia|assumption..].
Qed.

(** C3. Boundedness.  In every queue built with capacity [k > 0] through
    completed calls, the count lies between 0 and [k]; a [queue_put] that
    completes found a free slot and adds exactly one, a [queue_get] that
    completes found an item and removes exactly one; a put goes through
    exactly when a slot is free and a get exactly when an item waits. *)
Theorem queue_bounded (k : Z) (q : Queue) :
  0 < k <= INT_MAX ->
  reachable k q ->
  0 <= size q <= k
  /\ Z.of_nat (length (pending q)) = size q
  /\ (forall item q', queue_put q item = Done q' ->
        size q < k /\ size q' = size q + 1 /\ 0 <= size q' <= k)
  /\ (forall item q', queue_get q = Done (item, q') ->
        0 < size q /\ size q' = size q - 1 /\ 0 <= size q' <= k)
  /\ (forall item, size q < k -> exists q', queue_put q item = Done q')
  /\ (forall item, size q = k -> queue_put q item = Blocked)
  /\ (0 < size q -> exists item q', queue_get q = Done (item, q'))
  /\ (size q = 0 -> queue_get q = Blocked).
Proof.
  intros Hk Hreach.
  assert (Hinv : inv k q) by (apply reachable_inv; [lia|assumption]).
  assert (Hs := inv_size k q Hinv).
  repeat split; try lia.
  - destruct (pending_split k q Hinv) as (rest & _ & Hlp & _). exact Hlp.
  - destruct (queue_put_inv k q q' item) as (_ & ? & _); [lia|assumption..].
  - destruct (queue_put_inv k q q' item) as (_ & _ & ? & _); [lia|assumption..].
  - destruct (queue_put_inv k q q' item) as (Hi & _); [lia|assumption..|].
    apply (inv_size k q' Hi).
  - destruct (queue_put_inv k q q' item) as (Hi & _); [lia|assumption..|].
    apply (inv_size k q' Hi).
  - destruct (queue_get_inv k q q' item) as (_ & ? & _); [lia|assumption..].
  - destruct (queue_get_inv k q q' item) as (_ & _ & ? & _); [lia|assumption..].
  - destruct (queue_get_inv k q q' item) as (Hi & _); [lia|assumption..|].
    apply (inv_size k q' Hi).
  - destruct (queue_get_inv k q q' item) as (Hi & _); [lia|assumption..|].
    apply (inv_size k q' Hi).
  - intros item Hlt.
    destruct (queue_put_done k q item) as (q' & Hq' & _); [lia|assumption..|eauto].
  - intros item Hfull. apply (queue_put_blocked k q item Hinv Hfull).
  - intros Hpos.
    destruct (queue_get_done k q) as (x & q' & Hget & _); [lia|assumption..|eauto].
  - intros Hz. apply (queue_get_blocked k q Hinv Hz).
Qed.

(** C8, as stated, fails: [queue_alloc 0] returns a queue. *)
Lemma queue_alloc_zero_not_refused :
  (exists q, queue_alloc 0 = Some q /\ size q = 0 /\ task q = [])
  /\ ~ alloc_refuses_nonpositive.
Proof.
  split.
  - eexists. split; [reflexivity|]. split; reflexivity.
  - intros H. specialize (H 0). discriminate H.
    + unfold is_int, INT_MIN, INT_MAX. lia.
    + lia.
Qed.

(** C8, amended.  [queue_alloc] has no failure for a bad capacity: for
    every capacity [k >= 0] it returns a new queue holding nothing (count
    0) whose capacity is [k]: [k] puts complete and the next one blocks.
    With [k = 0] every put blocks. *)
Theorem queue_alloc_capacity (k : Z) :
  0 <= k <= INT_MAX ->
  exists q, queue_alloc k = Some q
    /\ size q = 0 /\ pending q = []
    /\ Z.of_nat (length (task q)) = k
    /\ empty q = Some k /\ full q = Some 0
    /\ queue_get q = Blocked
    /\ (forall items, Z.of_nat (length items) = k ->
          exists q1, put_all q items = Done q1 /\ size q1 = k
            /\ forall item, queue_put q1 item = Blocked).
Proof.
  intros Hk.
  destruct (queue_alloc k) as [q|] eqn:Hq; [|discriminate].
  destruct (queue_alloc_inv k q Hk Hq) as [Hinv Hz].
  exists q. split; [reflexivity|].
  split; [assumption|].
  split; [unfold pending; rewrite Hz; reflexivity|].
  split; [apply (inv_slots k q Hinv)|].
  split; [rewrite (inv_empty k q Hinv), Hz; f_equal; lia|].
  split; [rewrite (inv_full k q Hinv), Hz; reflexivity|].
  split; [apply (queue_get_blocked k q Hinv Hz)|].
  intros items Hlen.
  destruct (put_all_done k items q) as [q1 Hq1]; [lia|assumption|lia|].
  destruct (put_all_inv k items q q1) as (Hinv1 & _ & Hsz1); [lia|assumption..|].
  exists q1. split; [assumption|]. split; [lia|].
  intros item. apply (queue_put_blocked k q1 item Hinv1). lia.
Qed.

End QueueProperties.

(** ** The queue theorems at concrete queues *)

Section QueueWitnesses.
Import Queue.

Lemma queue_fifo_witness :
  0 < 3 <= INT_MAX
  /\ reachable 3 fresh3
  /\ put_all fresh3 [11; 22; 33] = Done filled3
  /\ exists q2, get_n filled3 3 = Done ([11; 22; 33], q2) /\ size q2 = 0.
Proof.
  assert (Hk : 0 < 3 <= INT_MAX) by (unfold INT_MAX; lia).
  assert (Hput : put_all fresh3 [11; 22; 33] = Done filled3) by reflexivity.
  assert (Hr : reachable 3 fresh3) by (apply reach_alloc; reflexivity).
  split; [exact Hk|]. split; [exact Hr|]. split; [exact Hput|].
  exact (proj1 (queue_fifo 3 fresh3 filled3 [11; 22; 33] Hk Hr Hput) eq_refl).
Defined.

Lemma queue_bounded_witness :
  0 < 2 <= INT_MAX
  /\ reachable 2 one_of_two
  /\ 0 <= size one_of_two <= 2.
Proof.
  assert (Hk : 0 < 2 <= INT_MAX) by (unfold INT_MAX; lia).
  assert (Hr : reachable 2 one_of_two).
  { apply (reach_put 2 fresh2 7); [apply reach_alloc|]; reflexivity. }
  split; [exact Hk|]. split; [exact Hr|].
  exact (proj1 (queue_bounded 2 one_of_two Hk Hr)).
Defined.

Lemma queue_alloc_capacity_witness :
  0 <= 3 <= INT_MAX
  /\ exists q, queue_alloc 3 = Some q /\ size q = 0 /\ pending q = [].
Proof.
  assert (Hk : 0 <= 3 <= INT_MAX) by (unfold INT_MAX; lia).
  split; [exact Hk|].
  destruct (queue_alloc_capacity 3 Hk) as (q & Hq & Hz & Hp & _).
  exists q. auto.
Defined.

End QueueWitnesses.

(** * Properties of queue.c under several threads *)

Section ThreadProperties.
Import Queue Threads.

Local Ltac unfold_consts :=
  unfold INT_MAX, INT_MIN, SIZE_MOD, PTRDIFF_MAX, SEM_VALUE_MAX, UINT_MOD in *.

Local Ltac call_steps :=
  cbn [bind sem_wait sem_post pthread_mutex_lock pthread_mutex_unlock fst snd
       with_empty with_full with_mutex full empty task size mutex].

Lemma tally_insert (f : pc -> Z) (ts : list pc) (i : nat) (p p' : pc) :
  ts !! i = Some p -> tally f (<[i := p']> ts) = tally f ts - f p + f p'.
Proof.
  revert i. induction ts as [|a ts IH]; intros i Hi; [discriminate|].
  destruct i as [|i]; simpl in Hi |- *.
  - injection Hi as ->. lia.
  - rewrite (IH i Hi). lia.
Qed.

Lemma tally_nonneg (f : pc -> Z) (ts : list pc) :
  (forall a, 0 <= f a) -> 0 <= tally f ts.
Proof.
  intros Hf. induction ts as [|b ts IH]; cbn; [lia|]. specialize (Hf b). lia.
Qed.

Lemma tally_lookup (f : pc -> Z) (ts : list pc) (i : nat) (p : pc) :
  (forall a, 0 <= f a) -> ts !! i = Some p -> f p <= tally f ts.
Proof.
  intros Hf. revert i. induction ts as [|a ts IH]; intros i Hi; [discriminate|].
  pose proof (tally_nonneg f ts Hf) as Hts.
  destruct i as [|i]; simpl in Hi |- *.
  - injection Hi as ->. lia.
  - specialize (IH i Hi). specialize (Hf a). lia.
Qed.

Lemma tally_zero (f : pc -> Z) (ts : list pc) :
  (forall i p, ts !! i = Some p -> f p = 0) -> tally f ts = 0.
Proof.
  induction ts as [|a ts IH]; intros H; cbn; [reflexivity|].
  rewrite (H O a eq_refl), IH; [reflexivity|].
  intros i p Hi. apply (H (S i) p Hi).
Qed.

Lemma filling_nonneg (p : pc) : 0 <= filling p.
Proof. destruct p; cbn; lia. Qed.
Lemma filled_nonneg (p : pc) : 0 <= filled p.
Proof. destruct p; cbn; lia. Qed.
Lemma emptying_nonneg (p : pc) : 0 <= emptying p.
Proof. destruct p; cbn; lia. Qed.
Lemma emptied_nonneg (p : pc) : 0 <= emptied p.
Proof. destruct p; cbn; lia. Qed.
Lemma inside_nonneg (p : pc) : 0 <= inside p.
Proof. destruct p; cbn; lia. Qed.

(** What the invariant says about a thread found at [p]. *)
Lemma sys_inv_bounds (k : Z) (sys : system) (i : nat) (p : pc) :
  sys_inv k sys -> threads sys !! i = Some p ->
  0 <= size (queue sys) <= k
  /\ filling p + emptied p <= k - size (queue sys)
  /\ filled p + emptying p <= size (queue sys)
  /\ inside p <= Z.b2z (mutex (queue sys)).
Proof.
  intros [He Hf Hfree Hitems Hslots Hmutex Horder] Hi.
  pose proof (tally_lookup filling _ i p filling_nonneg Hi).
  pose proof (tally_lookup filled _ i p filled_nonneg Hi).
  pose proof (tally_lookup emptying _ i p emptying_nonneg Hi).
  pose proof (tally_lookup emptied _ i p emptied_nonneg Hi).
  pose proof (tally_lookup inside _ i p inside_nonneg Hi).
  pose proof (filling_nonneg p). pose proof (filled_nonneg p).
  pose proof (emptying_nonneg p). pose proof (emptied_nonneg p).
  lia.
Qed.

Lemma slots_split (k : Z) (q : Queue) :
  0 <= size q <= k -> Z.of_nat (length (task q)) = k ->
  exists rest, task q = pending q ++ rest
    /\ Z.of_nat (length (pending q)) = size q
    /\ Z.of_nat (length rest) = k - size q.
Proof.
  intros Hs Hl. exists (drop (Z.to_nat (size q)) (task q)).
  unfold pending. rewrite take_drop. split; [reflexivity|].
  rewrite length_take, length_drop. lia.
Qed.

(** The body of [queue_put], entered with a free slot and the mutex. *)
Lemma put_body_done (k : Z) (q : Queue) (item : ptr) :
  k <= INT_MAX -> 0 <= size q < k -> Z.of_nat (length (task q)) = k ->
  mutex q = true ->
  exists q', action q (PutBody item) = Done (q', PutPost, Enqueued item)
    /\ full q' = full q /\ empty q' = empty q /\ mutex q' = false
    /\ size q' = size q + 1
    /\ Z.of_nat (length (task q')) = k
    /\ pending q' = pending q ++ [item].
Proof.
  intros Hk Hs Hl Hm.
  destruct (slots_split k q) as (rest & Ht & Hlp & Hlr); [lia|assumption|].
  destruct rest as [|r rest]; [simpl in Hlr; lia|].
  unfold action. rewrite Hm, Ht.
  rewrite store_app_middle by assumption.
  cbn [bind pthread_mutex_unlock].
  assert (Hsz : (size q + 1) mod SIZE_MOD = size q + 1).
  { apply Z.mod_small. unfold_consts. lia. }
  rewrite Hsz. eexists. split; [reflexivity|].
  cbn [full empty mutex size task].
  repeat split.
  - rewrite <- Hl, Ht, !length_app. simpl. lia.
  - unfold pending at 1. cbn [size task].
    replace (pending q ++ item :: rest) with ((pending q ++ [item]) ++ rest)
      by (rewrite <- app_assoc; reflexivity).
    apply take_app_length'. rewrite length_app. simpl. lia.
Qed.

(** The body of [queue_get], entered with an item and the mutex. *)
Lemma get_body_done (k : Z) (q : Queue) :
  k <= INT_MAX -> 0 < size q <= k -> Z.of_nat (length (task q)) = k ->
  mutex q = true ->
  exists item q', action q GetBody = Done (q', GetPost item, Dequeued item)
    /\ full q' = full q /\ empty q' = empty q /\ mutex q' = false
    /\ size q' = size q - 1
    /\ Z.of_nat (length (task q')) = k
    /\ pending q = item :: pending q'.
Proof.
  intros Hk Hs Hl Hm.
  destruct (slots_split k q) as (rest & Ht & Hlp & Hlr); [lia|assumption|].
  destruct (pending q) as [|x xs] eqn:Hp; [simpl in Hlp; lia|].
  simpl length in Hlp.
  unfold action. rewrite Hm, Ht.
  change ((x :: xs) ++ rest) with ([] ++ x :: xs ++ rest).
  rewrite (load_app_middle [] x (xs ++ rest) 0) by reflexivity.
  cbn [bind].
  replace (Z.to_nat (size q - 1)) with (length xs) by lia.
  destruct (shift_loop_spec xs [] x rest 1) as [v Hv]; [reflexivity|lia|].
  rewrite Hv. cbn [bind app].
  assert (Hsz : (size q - 1) mod SIZE_MOD = size q - 1).
  { apply Z.mod_small. unfold_consts. lia. }
  rewrite Hsz.
  rewrite store_app_middle by lia.
  cbn [bind pthread_mutex_unlock].
  exists x. eexists. split; [reflexivity|].
  cbn [full empty mutex size task].
  repeat split.
  - rewrite <- Hl, Ht, !length_app. simpl. lia.
  - f_equal. unfold pending. cbn [size task]. symmetry.
    apply take_app_length'. lia.
Qed.

(** A thread that runs a whole call on its own does what the sequential
    functions do. *)
Lemma run_call_put (q : Queue) (item : ptr) :
  run_call q (PutWait item)
  = let* q' := queue_put q item in Done (q', Idle).
Proof.
  unfold run_call, queue_put, action.
  destruct q as [f e t s m].
  destruct e as [v|]; call_steps; [|reflexivity].
  destruct (0 <? v); call_steps; [|reflexivity].
  destruct m; call_steps; [reflexivity|].
  destruct (store t s item) as [t'| |]; call_steps; [|reflexivity..].
  destruct f as [w|]; call_steps; [|reflexivity].
  destruct (w <? SEM_VALUE_MAX); reflexivity.
Qed.

Lemma run_call_get (q : Queue) :
  run_call q GetWait
  = let* r := queue_get q in Done (snd r, Idle).
Proof.
  unfold run_call, queue_get, action.
  destruct q as [f e t s m].
  destruct f as [w|]; call_steps; [|reflexivity].
  destruct (0 <? w); call_steps; [|reflexivity].
  destruct m; call_steps; [reflexivity|].
  destruct (load t 0) as [x| |]; call_steps; [|reflexivity..].
  destruct (shift_loop (Z.to_nat (s - 1)) 1 t) as [t1| |]; call_steps; [|reflexivity..].
  destruct (store t1 ((s - 1) mod SIZE_MOD) NULL) as [t2| |]; call_steps;
    [|reflexivity..].
  destruct e as [v|]; call_steps; [|reflexivity].
  destruct (v <? SEM_VALUE_MAX); reflexivity.
Qed.

Lemma init_sys_inv (k : Z) (n : nat) (q : Queue) :
  0 <= k <= INT_MAX -> queue_alloc k = Some q ->
  sys_inv k {| queue := q; threads := replicate n Idle; entered := []; departed := [] |}.
Proof.
  intros Hk Hq. destruct (queue_alloc_inv k q Hk Hq) as [[Hf He Hs Hl Hm] Hz].
  assert (Ht : forall f, f Idle = 0 -> tally f (replicate n Idle) = 0).
  { intros f Hf0. apply tally_zero. intros i p Hi.
    apply lookup_replicate in Hi. destruct Hi as [-> _]. exact Hf0. }
  constructor; cbn [queue threads entered departed];
    rewrite ?Ht by reflexivity.
  - rewrite He. f_equal. lia.
  - rewrite Hf. f_equal. lia.
  - lia.
  - lia.
  - exact Hl.
  - rewrite Hm. reflexivity.
  - unfold pending. rewrite Hz. reflexivity.
Qed.

Lemma record_queue (eff : effect) (sys : system) (q : Queue) (ts : list pc) :
  queue (record eff sys q ts) = q /\ threads (record eff sys q ts) = ts.
Proof. destruct eff; split; reflexivity. Qed.

Lemma step_sys_inv (k : Z) (sys sys' : system) :
  k <= INT_MAX -> sys_inv k sys -> step sys sys' -> sys_inv k sys'.
Proof.
  intros Hk Hinv Hstep.
  destruct Hstep as [i item sys Hi|i sys Hi|i p q' p' eff sys Hi Hact].
  - destruct Hinv as [He Hf Hfree Hitems Hslots Hmutex Horder].
    constructor; cbn [record queue threads entered departed];
      rewrite ?(tally_insert _ _ _ _ _ Hi); cbn [filling filled emptying emptied inside];
      rewrite ?Z.sub_0_r, ?Z.add_0_r; assumption.
  - destruct Hinv as [He Hf Hfree Hitems Hslots Hmutex Horder].
    constructor; cbn [record queue threads entered departed];
      rewrite ?(tally_insert _ _ _ _ _ Hi); cbn [filling filled emptying emptied inside];
      rewrite ?Z.sub_0_r, ?Z.add_0_r; assumption.
  - destruct (sys_inv_bounds k sys i p Hinv Hi) as (Hs & Hfe & Hfi & Hin).
    destruct Hinv as [He Hf Hfree Hitems Hslots Hmutex Horder].
    destruct p as [|x|x|x| | | | |x].
    + discriminate Hact.
    + (* PutWait *)
      cbn [action] in Hact. rewrite He in Hact. cbn [sem_wait] in Hact.
      destruct (Z.ltb_spec 0 (k - size (queue sys) - tally filling (threads sys)
                               - tally emptied (threads sys))); [|discriminate].
      cbn [bind] in Hact. injection Hact as <- <- <-.
      constructor; cbn [record queue threads entered departed with_empty
                          full empty task size mutex];
        rewrite ?(tally_insert _ _ _ _ _ Hi); cbn [filling filled emptying emptied inside];
        try assumption; try lia.
      * f_equal. lia.
      * rewrite Hf. f_equal. lia.
    + (* PutLock *)
      cbn [action] in Hact. destruct (mutex (queue sys)) eqn:Hm; [discriminate|].
      cbn [pthread_mutex_lock bind] in Hact. injection Hact as <- <- <-.
      constructor; cbn [record queue threads entered departed with_mutex
                          full empty task size mutex];
        rewrite ?(tally_insert _ _ _ _ _ Hi); cbn [filling filled emptying emptied inside];
        try assumption; try lia.
      * rewrite He. f_equal. lia.
      * rewrite Hf. f_equal. lia.
      * cbn [Z.b2z] in Hmutex |- *. lia.
    + (* PutBody *)
      cbn [filling emptied inside] in Hfe, Hin.
      assert (Hm : mutex (queue sys) = true).
      { destruct (mutex (queue sys)); [reflexivity|cbn in Hin; lia]. }
      destruct (put_body_done k (queue sys) x Hk) as
        (q1 & Hq1 & Hf1 & He1 & Hm1 & Hs1 & Hl1 & Hp1); [lia|assumption..|].
      rewrite Hq1 in Hact. injection Hact as <- <- <-.
      constructor; cbn [record queue threads entered departed];
        rewrite ?(tally_insert _ _ _ _ _ Hi); cbn [filling filled emptying emptied inside];
        rewrite ?Hf1, ?He1, ?Hm1, ?Hs1, ?Hp1; try assumption; try lia.
      * rewrite He. f_equal. lia.
      * rewrite Hf. f_equal. lia.
      * rewrite Hm in Hmutex. cbn [Z.b2z] in Hmutex |- *. lia.
      * rewrite Horder, <- app_assoc. reflexivity.
    + (* PutPost *)
      cbn [filled emptying] in Hfi.
      cbn [action] in Hact. rewrite Hf in Hact. cbn [sem_post] in Hact.
      destruct (Z.ltb_spec (size (queue sys) - tally filled (threads sys)
                              - tally emptying (threads sys)) SEM_VALUE_MAX) as [_|Hge].
      2:{ pose proof (tally_lookup filled _ i PutPost filled_nonneg Hi) as Hone.
          pose proof (tally_nonneg emptying (threads sys) emptying_nonneg).
          cbn [filled] in Hone. unfold_consts. lia. }
      cbn [bind] in Hact. injection Hact as <- <- <-.
      constructor; cbn [record queue threads entered departed with_full
                          full empty task size mutex];
        rewrite ?(tally_insert _ _ _ _ _ Hi); cbn [filling filled emptying emptied inside];
        try assumption; try lia.
      * rewrite He. f_equal. lia.
      * f_equal. lia.
    + (* GetWait *)
      cbn [action] in Hact. rewrite Hf in Hact. cbn [sem_wait] in Hact.
      destruct (Z.ltb_spec 0 (size (queue sys) - tally filled (threads sys)
                               - tally emptying (threads sys))); [|discriminate].
      cbn [bind] in Hact. injection Hact as <- <- <-.
      constructor; cbn [record queue threads entered departed with_full
                          full empty task size mutex];
        rewrite ?(tally_insert _ _ _ _ _ Hi); cbn [filling filled emptying emptied inside];
        try assumption; try lia.
      * rewrite He. f_equal. lia.
      * f_equal. lia.
    + (* GetLock *)
      cbn [action] in Hact. destruct (mutex (queue sys)) eqn:Hm; [discriminate|].
      cbn [pthread_mutex_lock bind] in Hact. injection Hact as <- <- <-.
      constructor; cbn [record queue threads entered departed with_mutex
                          full empty task size mutex];
        rewrite ?(tally_insert _ _ _ _ _ Hi); cbn [filling filled emptying emptied inside];
        try assumption; try lia.
      * rewrite He. f_equal. lia.
      * rewrite Hf. f_equal. lia.
      * cbn [Z.b2z] in Hmutex |- *. lia.
    + (* GetBody *)
      cbn [filled emptying inside] in Hfi, Hin.
      assert (Hm : mutex (queue sys) = true).
      { destruct (mutex (queue sys)); [reflexivity|cbn in Hin; lia]. }
      destruct (get_body_done k (queue sys) Hk) as
        (x & q1 & Hq1 & Hf1 & He1 & Hm1 & Hs1 & Hl1 & Hp1); [lia|assumption..|].
      rewrite Hq1 in Hact. injection Hact as <- <- <-.
      constructor; cbn [record queue threads entered departed];
        rewrite ?(tally_insert _ _ _ _ _ Hi); cbn [filling filled emptying emptied inside];
        rewrite ?Hf1, ?He1, ?Hm1, ?Hs1; try assumption; try lia.
      * rewrite He. f_equal. lia.
      * rewrite Hf. f_equal. lia.
      * rewrite Hm in Hmutex. cbn [Z.b2z] in Hmutex |- *. lia.
      * rewrite Horder, Hp1, <- app_assoc. reflexivity.
    + (* GetPost *)
      cbn [filling emptied] in Hfe.
      cbn [action] in Hact. rewrite He in Hact. cbn [sem_post] in Hact.
      destruct (Z.ltb_spec (k - size (queue sys) - tally filling (threads sys)
                              - tally emptied (threads sys)) SEM_VALUE_MAX) as [_|Hge].
      2:{ pose proof (tally_lookup emptied _ i (GetPost x) emptied_nonneg Hi) as Hone.
          pose proof (tally_nonneg filling (threads sys) filling_nonneg).
          cbn [emptied] in Hone. unfold_consts. lia. }
      cbn [bind] in Hact. injection Hact as <- <- <-.
      constructor; cbn [record queue threads entered departed with_empty
                          full empty task size mutex];
        rewrite ?(tally_insert _ _ _ _ _ Hi); cbn [filling filled emptying emptied inside];
        try assumption; try lia.
      * f_equal. lia.
      * rewrite Hf. f_equal. lia.
Qed.

Lemma reaches_sys_inv (k : Z) (n : nat) (sys : system) :
  0 <= k <= INT_MAX -> reaches k n sys -> sys_inv k sys.
Proof.
  intros Hk Hr. induction Hr as [q Hq|sys sys' _ IH Hstep].
  - apply init_sys_inv; assumption.
  - apply (step_sys_inv k sys sys'); [lia|assumption..].
Qed.

(** Under the invariant no action is undefined, and a thread that holds
    the mutex or is about to post is never held up. *)
Lemma action_defined (k : Z) (sys : system) (i : nat) (p : pc) :
  k <= INT_MAX -> sys_inv k sys -> threads sys !! i = Some p ->
  action (queue sys) p <> Fault
  /\ (inside p = 1 \/ filled p = 1 \/ emptied p = 1 ->
      exists r, action (queue sys) p = Done r).
Proof.
  intros Hk Hinv Hi.
  destruct (sys_inv_bounds k sys i p Hinv Hi) as (Hs & Hfe & Hfi & Hin).
  destruct Hinv as [He Hf Hfree Hitems Hslots Hmutex Horder].
  destruct p as [|x|x|x| | | | |x]; cbn [filling filled emptying emptied inside] in *.
  - split; [discriminate|]. intros [?|[?|?]]; lia.
  - split; [|intros [?|[?|?]]; lia].
    cbn [action]. rewrite He. cbn [sem_wait]. destruct (_ <? _); discriminate.
  - split; [|intros [?|[?|?]]; lia].
    cbn [action]. destruct (mutex (queue sys)); discriminate.
  - assert (Hm : mutex (queue sys) = true).
    { destruct (mutex (queue sys)); [reflexivity|cbn in Hin; lia]. }
    destruct (put_body_done k (queue sys) x Hk) as (q1 & Hq1 & _); [lia|assumption..|].
    rewrite Hq1. split; [discriminate|eauto].
  - cbn [action]. rewrite Hf. cbn [sem_post].
    destruct (_ <? _); cbn [bind]; (split; [discriminate|eauto]).
  - split; [|intros [?|[?|?]]; lia].
    cbn [action]. rewrite Hf. cbn [sem_wait]. destruct (_ <? _); discriminate.
  - split; [|intros [?|[?|?]]; lia].
    cbn [action]. destruct (mutex (queue sys)); discriminate.
  - assert (Hm : mutex (queue sys) = true).
    { destruct (mutex (queue sys)); [reflexivity|cbn in Hin; lia]. }
    destruct (get_body_done k (queue sys) Hk) as (y & q1 & Hq1 & _); [lia|assumption..|].
    rewrite Hq1. split; [discriminate|eauto].
  - cbn [action]. rewrite He. cbn [sem_post].
    destruct (_ <? _); cbn [bind]; (split; [discriminate|eauto]).
Qed.

Lemma perform_step (sys sys' : system) (m : move) :
  perform sys m = Some sys' -> step sys sys'.
Proof.
  destruct m as [i item|i|i]; cbn [perform].
  - destruct (threads sys !! i) as [[]|] eqn:Hi; try discriminate.
    intros [= <-]. apply step_put. exact Hi.
  - destruct (threads sys !! i) as [[]|] eqn:Hi; try discriminate.
    intros [= <-]. apply step_get. exact Hi.
  - destruct (threads sys !! i) as [p|] eqn:Hi; [|discriminate].
    destruct (action (queue sys) p) as [[[q' p'] eff]| |] eqn:Ha; try discriminate.
    intros [= <-]. apply (step_action i p q' p' eff sys Hi Ha).
Qed.

Lemma schedule_reaches (k : Z) (n : nat) (moves : list move) (sys sys' : system) :
  reaches k n sys -> schedule sys moves = Some sys' -> reaches k n sys'.
Proof.
  revert sys. induction moves as [|m moves IH]; intros sys Hr; cbn [schedule].
  - intros [= <-]. exact Hr.
  - destruct (perform sys m) as [sys1|] eqn:Hm; [|discriminate].
    apply IH. apply (reach_step k n sys sys1 Hr). apply perform_step with m. exact Hm.
Qed.

Lemma handoff_runs :
  reaches 1 2 two_threads
  /\ schedule two_threads handoff = Some handed_over
  /\ reaches 1 2 handed_over
  /\ schedule two_threads [CallPut 0 5; Act 0; Act 0; Act 0; Act 0; CallPut 0 6; Act 0]
     = None.
Proof.
  assert (Hinit : reaches 1 2 two_threads) by (apply reach_init; reflexivity).
  assert (Hs : schedule two_threads handoff = Some handed_over)
    by (vm_compute; reflexivity).
  split; [exact Hinit|]. split; [exact Hs|].
  split; [apply (schedule_reaches 1 2 handoff two_threads _ Hinit Hs)|].
  vm_compute. reflexivity.
Qed.

(** X4.  With [n] threads sharing a queue of capacity [k], in every
    interleaving of their actions: the count stays between 0 and [k], no
    action runs outside the slot array or on a bad semaphore or mutex, and
    the items leave the slot array in the order in which they entered it,
    none twice and none lost. *)
Theorem threads_bounded_fifo (k : Z) (n : nat) (sys : system) :
  0 < k <= INT_MAX -> reaches k n sys ->
  0 <= size (queue sys) <= k
  /\ entered sys = departed sys ++ pending (queue sys)
  /\ Z.of_nat (length (pending (queue sys))) = size (queue sys)
  /\ (forall i p, threads sys !! i = Some p -> action (queue sys) p <> Fault).
Proof.
  intros Hk Hr.
  assert (Hinv : sys_inv k sys) by (apply (reaches_sys_inv k n); [lia|assumption]).
  assert (Hs : 0 <= size (queue sys) <= k).
  { destruct Hinv as [He Hf Hfree Hitems Hslots Hmutex Horder].
    pose proof (tally_nonneg _ (threads sys) filling_nonneg).
    pose proof (tally_nonneg _ (threads sys) filled_nonneg).
    pose proof (tally_nonneg _ (threads sys) emptying_nonneg).
    pose proof (tally_nonneg _ (threads sys) emptied_nonneg). lia. }
  split; [exact Hs|]. split; [apply (si_order k sys Hinv)|]. split.
  - destruct (slots_split k (queue sys) Hs (si_slots k sys Hinv)) as (rest & _ & Hl & _).
    exact Hl.
  - intros i p Hi. apply (action_defined k sys i p); [lia|assumption..].
Qed.

(** X5.  When no thread can move, every thread inside a call waits on a
    semaphore: producers on a full queue, or consumers on an empty one. *)
Theorem threads_stuck_only_waiting (k : Z) (n : nat) (sys : system) :
  0 < k <= INT_MAX -> reaches k n sys ->
  (forall i p, threads sys !! i = Some p -> action (queue sys) p = Blocked) ->
  (forall i p, threads sys !! i = Some p ->
     p = Idle \/ (exists item, p = PutWait item) \/ p = GetWait)
  /\ ((exists i item, threads sys !! i = Some (PutWait item)) -> size (queue sys) = k)
  /\ ((exists i, threads sys !! i = Some GetWait) -> size (queue sys) = 0).
Proof.
  intros Hk Hr Hstuck.
  assert (Hinv : sys_inv k sys) by (apply (reaches_sys_inv k n); [lia|assumption]).
  assert (Hout : forall i p, threads sys !! i = Some p ->
            inside p = 0 /\ filled p = 0 /\ emptied p = 0).
  { intros i p Hi.
    destruct (action_defined k sys i p) as [_ Hen]; [lia|assumption..|].
    specialize (Hstuck i p Hi).
    destruct p; cbn [inside filled emptied] in *; repeat split; try reflexivity;
      (destruct Hen as [r Hr']; [auto|congruence]). }
  assert (Hfree : mutex (queue sys) = false).
  { pose proof (si_mutex k sys Hinv) as Hm.
    rewrite (tally_zero inside) in Hm by (intros i p Hi; apply (Hout i p Hi)).
    destruct (mutex (queue sys)); [discriminate|reflexivity]. }
  assert (Hwait : forall i p, threads sys !! i = Some p ->
            p = Idle \/ (exists item, p = PutWait item) \/ p = GetWait).
  { intros i p Hi. specialize (Hstuck i p Hi). destruct (Hout i p Hi) as (H1 & H2 & H3).
    destruct p; cbn [inside filled emptied] in *; try lia; eauto;
      cbn [action] in Hstuck; rewrite Hfree in Hstuck; discriminate. }
  split; [exact Hwait|].
  assert (Hz : forall f, f Idle = 0 -> (forall x, f (PutWait x) = 0) -> f GetWait = 0 ->
               tally f (threads sys) = 0).
  { intros f H0 H1 H2. apply tally_zero. intros i p Hi.
    destruct (Hwait i p Hi) as [->|[[x ->]| ->]]; auto. }
  pose proof (si_empty k sys Hinv) as He. pose proof (si_full k sys Hinv) as Hf.
  pose proof (si_free k sys Hinv) as Hfr. pose proof (si_items k sys Hinv) as Hit.
  rewrite (Hz filling), (Hz emptied) in He, Hfr by reflexivity.
  rewrite (Hz filled), (Hz emptying) in Hf, Hit by reflexivity.
  split.
  - intros (i & x & Hi). specialize (Hstuck i _ Hi).
    cbn [action] in Hstuck. rewrite He in Hstuck. cbn [sem_wait] in Hstuck.
    destruct (Z.ltb_spec 0 (k - size (queue sys) - 0 - 0)); [discriminate|lia].
  - intros (i & Hi). specialize (Hstuck i _ Hi).
    cbn [action] in Hstuck. rewrite Hf in Hstuck. cbn [sem_wait] in Hstuck.
    destruct (Z.ltb_spec 0 (size (queue sys) - 0 - 0)); [discriminate|lia].
Qed.

End ThreadProperties.

(** * Properties of http.c *)

Section PlannerProperties.
Import Http.

(** C1. For a content size [c >= 0] and [t >= 1] threads, [calc_tasks]
    returns [t] tasks and sets the chunk size to [c / t] when the probe
    found range support, and returns 1 task with chunk size [c] when it
    did not; for [c = 1000], [t = 4] with range support: 4 tasks of 250. *)
Theorem calc_tasks_plan (c t : Z) (s : state) :
  0 <= c -> 1 <= t ->
  (forall p, calc_tasks (Some p) c t s = (Returns t, snd (set_max_chunk_size (c / t) s)))
  /\ (forall p, max_chunk_size (snd (calc_tasks (Some p) c t s)) = c / t)
  /\ calc_tasks None c t s = (Returns 1, snd (set_max_chunk_size c s))
  /\ max_chunk_size (snd (calc_tasks None c t s)) = c
  /\ (forall p, fst (calc_tasks (Some p) 1000 4 s) = Returns 4
        /\ fst (get_max_chunk_size (snd (calc_tasks (Some p) 1000 4 s))) = Returns 250).
Proof.
  intros Hc Ht.
  assert (Hplan : forall p,
    calc_tasks (Some p) c t s = (Returns t, snd (set_max_chunk_size (c / t) s))).
  { intros p. unfold calc_tasks.
    destruct (Z.eqb_spec t 0) as [->|_]; [lia|].
    destruct (Z.eqb_spec t (-1)) as [->|_]; [lia|].
    rewrite andb_false_r. cbn [orb].
    rewrite Z.quot_div_nonneg by lia. reflexivity. }
  split; [exact Hplan|].
  split; [intros p; rewrite Hplan; reflexivity|].
  split; [reflexivity|].
  split; [reflexivity|].
  intros p. split; reflexivity.
Qed.

Lemma calc_tasks_plan_witness :
  0 <= 1003 /\ 1 <= 4
  /\ fst (calc_tasks (Some 17) 1003 4 quiet) = Returns 4
  /\ max_chunk_size (snd (calc_tasks (Some 17) 1003 4 quiet)) = 250
  /\ max_chunk_size (snd (calc_tasks None 1003 4 quiet)) = 1003.
Proof.
  assert (H0 : 0 <= 1003) by lia.
  assert (H1 : 1 <= 4) by lia.
  destruct (calc_tasks_plan 1003 4 quiet H0 H1) as (Ha & Hb & _ & Hd & _).
  split; [exact H0|]. split; [exact H1|].
  split; [rewrite (Ha 17); reflexivity|].
  split; [rewrite (Hb 17); reflexivity|exact Hd].
Defined.

(** C7. With content size 0 and [t >= 1] threads, [calc_tasks] returns at
    least one task and sets the chunk size to 0, with or without range
    support; the division it performs has a non-zero divisor. *)
Theorem calc_tasks_empty_content (accept : option Z) (t : Z) (s : state) :
  1 <= t ->
  exists tasks,
    fst (calc_tasks accept 0 t s) = Returns tasks
    /\ 1 <= tasks
    /\ max_chunk_size (snd (calc_tasks accept 0 t s)) = 0
    /\ fst (calc_tasks accept 0 t s) <> Undefined.
Proof.
  intros Ht. destruct accept as [p|].
  - exists t. unfold calc_tasks.
    destruct (Z.eqb_spec t 0) as [->|_]; [lia|].
    cbn [andb orb]. cbn. rewrite Z.quot_0_l by lia.
    repeat split; [assumption|discriminate].
  - exists 1. cbn. repeat split; [lia|discriminate].
Qed.

Lemma calc_tasks_empty_content_witness :
  1 <= 5
  /\ exists tasks,
       fst (calc_tasks (Some 0) 0 5 quiet) = Returns tasks /\ 1 <= tasks
       /\ max_chunk_size (snd (calc_tasks (Some 0) 0 5 quiet)) = 0.
Proof.
  assert (H1 : 1 <= 5) by lia.
  split; [exact H1|].
  destruct (calc_tasks_empty_content (Some 0) 5 quiet H1) as (n & Ha & Hb & Hc & _).
  exists n. auto.
Defined.

End PlannerProperties.

Section TransportProperties.
Import Http.

Lemma read_loop_empty (response : Buffer) :
  read_loop [] response = (Returns response, []).
Proof. reflexivity. Qed.

(** A completed [http_query] ends in [ret (Some response)]. *)
Lemma http_query_result (host : bytes) (page range : option bytes) (port : Z)
    (s s' : state) (r : option Buffer) :
  http_query host page range port s = (Returns r, s') -> exists b, r = Some b.
Proof.
  unfold http_query, mbind. intros H.
  destruct (client_socket host port s) as [[fd| |] s1]; try discriminate.
  destruct (lift (pack_http_request host page range GET) s1) as [[req| |] s2];
    try discriminate.
  destruct (send_http_request fd req s2) as [[n| |] s3]; try discriminate.
  destruct (receive_all s3) as [[b| |] s4]; try discriminate.
  cbn in H. injection H as <- _. eauto.
Qed.

Lemma client_socket_refused (host : bytes) (port : Z) (s : state) :
  getaddrinfo_rc s = 0 -> socket_fd s < 0 \/ connect_rc s = -1 ->
  fst (client_socket host port s) = Exits 1.
Proof.
  intros Hgai Hfail. unfold client_socket, mbind, get. rewrite Hgai. cbn.
  destruct (Z.ltb_spec (socket_fd s) 0) as [Hneg|Hfd].
  - reflexivity.
  - destruct Hfail as [? | ->]; [lia|]. reflexivity.
Qed.

Lemma send_http_request_failed (fd : Z) (request : bytes) (s : state) :
  write_rc s < 0 -> fst (send_http_request fd request s) = Exits 1.
Proof.
  intros Hw. unfold send_http_request, mbind, get. cbn.
  destruct (Z.ltb_spec (write_rc s) 0); [reflexivity|lia].
Qed.

Lemma client_socket_preserves (host : bytes) (port : Z) (s s' : state) (o : outcome Z) :
  client_socket host port s = (o, s') ->
  write_rc s' = write_rc s /\ reads s' = reads s.
Proof.
  unfold client_socket, mbind, get. intros H.
  destruct (getaddrinfo_rc s =? 0); cbn in H.
  - destruct (_ =? -1) in H; cbn in H; injection H as _ <-; auto.
  - injection H as _ <-. auto.
Qed.

(** C10. [http_query] never hands [NULL] or an error to its caller: when it
    returns, the result is a buffer, of length 0 when the server sent
    nothing; a refused connection ends the process in [client_socket] and a
    failed write ends it in [send_http_request], both with [exit(1)]. *)
Theorem http_query_never_null (host : bytes) (page range : option bytes)
    (port : Z) (s : state) :
  (forall r s', http_query host page range port s = (Returns r, s') ->
     exists b, r = Some b)
  /\ (getaddrinfo_rc s = 0 -> socket_fd s < 0 \/ connect_rc s = -1 ->
        fst (client_socket host port s) = Exits 1
        /\ fst (http_query host page range port s) = Exits 1)
  /\ (forall fd s1 request,
        client_socket host port s = (Returns fd, s1) ->
        pack_http_request host page range GET = Returns request ->
        write_rc s < 0 ->
        fst (send_http_request fd request s1) = Exits 1
        /\ fst (http_query host page range port s) = Exits 1)
  /\ (forall fd s1 request,
        client_socket host port s = (Returns fd, s1) ->
        pack_http_request host page range GET = Returns request ->
        0 <= write_rc s ->
        reads s = [] ->
        exists b, fst (http_query host page range port s) = Returns (Some b)
                  /\ length b = 0).
Proof.
  split; [|split; [|split]].
  - intros r s'. apply http_query_result.
  - intros Hgai Hfail.
    pose proof (client_socket_refused host port s Hgai Hfail) as Hc.
    split; [exact Hc|].
    unfold http_query, mbind.
    destruct (client_socket host port s) as [o s1]. cbn in Hc. subst o. reflexivity.
  - intros fd s1 request Hc Hp Hw.
    destruct (client_socket_preserves _ _ _ _ _ Hc) as [Hw1 _].
    assert (Hs : fst (send_http_request fd request s1) = Exits 1).
    { apply send_http_request_failed. lia. }
    split; [exact Hs|].
    unfold http_query, mbind. rewrite Hc. unfold lift at 1. rewrite Hp.
    destruct (send_http_request fd request s1) as [o s2]. cbn in Hs. subst o.
    reflexivity.
  - intros fd s1 request Hc Hp Hw Hr.
    destruct (client_socket_preserves _ _ _ _ _ Hc) as [Hw1 Hr1].
    eexists. split.
    + unfold http_query, mbind. rewrite Hc. unfold lift at 1. rewrite Hp.
      unfold send_http_request, mbind, get. cbn [emit].
      rewrite Hw1. destruct (Z.ltb_spec (write_rc s) 0); [lia|].
      unfold ret at 1. unfold receive_all, mbind, get. cbn [reads].
      rewrite Hr1, Hr. rewrite read_loop_empty. cbn. reflexivity.
    + reflexivity.
Qed.

Lemma http_query_never_null_witness :
  (getaddrinfo_rc unreachable_server = 0
   /\ (socket_fd unreachable_server < 0 \/ connect_rc unreachable_server = -1)
   /\ fst (http_query (lit "example.com") (Some (lit "a.txt")) None 80
             unreachable_server) = Exits 1)
  /\ exists b, fst (http_query (lit "example.com") (Some (lit "a.txt")) None 80
                      silent_server) = Returns (Some b)
               /\ length b = 0.
Proof.
  split.
  - assert (Hg : getaddrinfo_rc unreachable_server = 0) by reflexivity.
    assert (Hc : socket_fd unreachable_server < 0
                 \/ connect_rc unreachable_server = -1) by (right; reflexivity).
    split; [exact Hg|]. split; [exact Hc|].
    exact (proj2 (proj1 (proj2 (http_query_never_null (lit "example.com")
             (Some (lit "a.txt")) None 80 unreachable_server)) Hg Hc)).
  - refine (proj2 (proj2 (proj2 (http_query_never_null (lit "example.com")
             (Some (lit "a.txt")) None 80 silent_server))) 3 _ _ _ _ _ _).
    + cbv. reflexivity.
    + cbv. reflexivity.
    + cbn. lia.
    + reflexivity.
Defined.

End TransportProperties.

Section ParserProperties.
Import Http.

Lemma is_prefix_true (p s : bytes) :
  is_prefix p s = true <-> exists post, s = p ++ post.
Proof.
  revert s. induction p as [|a p IH]; intros s.
  - simpl. split; [intros _; exists s; reflexivity|reflexivity].
  - destruct s as [|b s]; simpl.
    + split; [discriminate|intros [post H]; discriminate].
    + destruct (Ascii.eqb_spec a b) as [->|Hne].
      * rewrite IH. split; intros [post H]; exists post; congruence.
      * split; [discriminate|intros [post H]; congruence].
Qed.

Lemma occurs_at_zero (needle text : bytes) :
  occurs_at needle text 0 <-> is_prefix needle text = true.
Proof.
  rewrite is_prefix_true. split.
  - intros (pre & post & -> & Hl). destruct pre; [|discriminate]. eauto.
  - intros [post ->]. exists [], post. auto.
Qed.

Lemma occurs_at_succ (needle : bytes) (c : ascii) (text : bytes) (i : nat) :
  occurs_at needle (c :: text) (S i) <-> occurs_at needle text i.
Proof.
  split.
  - intros (pre & post & H & Hl). destruct pre as [|d pre]; [discriminate|].
    simpl in H, Hl. injection H as -> ->. exists pre, post. auto with arith.
  - intros (pre & post & -> & Hl). exists (c :: pre), post. simpl. auto.
Qed.

Lemma occurs_at_nil (needle : bytes) (i : nat) :
  occurs_at needle [] (S i) -> False.
Proof. intros (pre & post & H & Hl). destruct pre; discriminate. Qed.

Lemma strstr_unfold (h n : bytes) :
  strstr h n = if is_prefix n h then Some O
               else match h with
                    | [] => None
                    | _ :: rest => S <$> strstr rest n
                    end.
Proof. destruct h; reflexivity. Qed.

Lemma strstr_Some (h n : bytes) (i : nat) :
  strstr h n = Some i -> first_at n h i.
Proof.
  revert i. induction h as [|c h IH]; intros i; rewrite strstr_unfold;
    destruct (is_prefix n _) eqn:Hp.
  - intros [= <-]. split; [apply occurs_at_zero, Hp|intros j Hj; lia].
  - discriminate.
  - intros [= <-]. split; [apply occurs_at_zero, Hp|intros j Hj; lia].
  - destruct (strstr h n) as [i'|] eqn:Hs; [|discriminate].
    intros [= <-]. destruct (IH i' eq_refl) as [Hocc Hfirst]. split.
    + apply occurs_at_succ, Hocc.
    + intros [|j] Hj.
      * rewrite occurs_at_zero, Hp. discriminate.
      * rewrite occurs_at_succ. apply Hfirst. lia.
Qed.

Lemma strstr_None (h n : bytes) :
  strstr h n = None -> ~ occurs n h.
Proof.
  induction h as [|c h IH]; rewrite strstr_unfold;
    destruct (is_prefix n _) eqn:Hp; try discriminate.
  - intros _ [[|i] Hocc].
    + rewrite occurs_at_zero, Hp in Hocc. discriminate.
    + apply (occurs_at_nil n i Hocc).
  - destruct (strstr h n) as [i'|] eqn:Hs; [discriminate|].
    intros _ [[|i] Hocc].
    + rewrite occurs_at_zero, Hp in Hocc. discriminate.
    + apply IH; [reflexivity|]. exists i. apply occurs_at_succ in Hocc. exact Hocc.
Qed.

Lemma strstr_first (h n : bytes) (i : nat) :
  first_at n h i -> strstr h n = Some i.
Proof.
  intros [Hocc Hfirst]. destruct (strstr h n) as [j|] eqn:Hs.
  - destruct (strstr_Some h n j Hs) as [Hoj Hfj].
    destruct (Nat.lt_trichotomy i j) as [Hlt|[->|Hgt]].
    + destruct (Hfj i Hlt Hocc).
    + reflexivity.
    + destruct (Hfirst j Hgt Hoj).
  - destruct (strstr_None h n Hs). exists i. exact Hocc.
Qed.

Lemma strstr_absent (h n : bytes) :
  ~ occurs n h -> strstr h n = None.
Proof.
  intros Hno. destruct (strstr h n) as [j|] eqn:Hs; [|reflexivity].
  destruct Hno. exists j. apply (strstr_Some h n j Hs).
Qed.

Lemma strstr_is_Some (h n : bytes) :
  occurs n h <-> exists i, strstr h n = Some i.
Proof.
  split.
  - intros Hocc. destruct (strstr h n) as [j|] eqn:Hs; [eauto|].
    destruct (strstr_None h n Hs Hocc).
  - intros [i Hs]. exists i. apply (strstr_Some h n i Hs).
Qed.

Lemma occurs_at_bound (needle text : bytes) (i : nat) :
  occurs_at needle text i -> (i + Datatypes.length needle <= Datatypes.length text)%nat.
Proof.
  intros (pre & post & -> & <-). rewrite !length_app. lia.
Qed.

(** The string held by a block. *)
Lemma c_str_Some (mem s : bytes) :
  c_str mem = Some s ->
  exists rest, mem = s ++ NUL :: rest /\ Forall (fun c => c <> NUL) s.
Proof.
  revert s. induction mem as [|c mem IH]; intros s; simpl; [discriminate|].
  destruct (Ascii.eqb_spec c NUL) as [->|Hne].
  - intros [= <-]. exists mem. split; [reflexivity|constructor].
  - destruct (c_str mem) as [s'|]; [|discriminate].
    intros [= <-]. destruct (IH s' eq_refl) as (rest & -> & Hall).
    exists rest. split; [reflexivity|constructor; assumption].
Qed.

Lemma c_str_app (s rest : bytes) :
  Forall (fun c => c <> NUL) s -> c_str (s ++ NUL :: rest) = Some s.
Proof.
  induction 1 as [|c s Hc _ IH]; simpl.
  - reflexivity.
  - destruct (Ascii.eqb_spec c NUL); [contradiction|]. rewrite IH. reflexivity.
Qed.

Lemma c_str_None (mem : bytes) :
  c_str mem = None <-> Forall (fun c => c <> NUL) mem.
Proof.
  induction mem as [|c mem IH]; simpl.
  - split; [constructor|reflexivity].
  - destruct (Ascii.eqb_spec c NUL) as [->|Hne].
    + split; [discriminate|]. intros H. inversion H. congruence.
    + destruct (c_str mem).
      * split; [discriminate|]. intros H. inversion H as [|? ? _ H']. apply IH in H'.
        discriminate.
      * split; [|reflexivity]. intros _. constructor; [assumption|]. apply IH. reflexivity.
Qed.

Lemma strstr_at_start (mem text needle : bytes) :
  c_str mem = Some text ->
  strstr_at mem 0 needle = Returns (Z.of_nat <$> strstr text needle).
Proof.
  intros Hc. unfold strstr_at.
  assert (0 <= len mem) by (unfold len; lia).
  destruct (Z.leb_spec 0 (len mem)); [|lia].
  change (drop (Z.to_nat 0) mem) with mem. cbn [Z.leb andb]. rewrite Hc.
  destruct (strstr text needle); reflexivity.
Qed.

(** A block without NUL is not a string: searching it is undefined. *)
Lemma strstr_at_unterminated (mem needle : bytes) :
  c_str mem = None -> strstr_at mem 0 needle = Undefined.
Proof.
  intros Hc. unfold strstr_at.
  change (drop (Z.to_nat 0) mem) with mem. rewrite Hc.
  destruct ((0 <=? 0) && (0 <=? len mem)); reflexivity.
Qed.

(** C6, as stated, fails: it speaks of every response buffer and of the
    separator in the buffer.  With a NUL before the blank line the
    separator is in the buffer, first at offset 21, and the result is
    offset 0, not 25: [strstr] stops at the NUL.  The buffer that
    [http_query] returns from a NUL-free answer holds the separator too,
    and is no string: the call is undefined. *)
Lemma http_get_content_stops_at_nul :
  (first_at (CRLF ++ CRLF) (data nul_in_header) 21
   /\ http_get_content nul_in_header = Returns 0
   /\ http_get_content nul_in_header <> Returns (21 + 4))
  /\ (fst (http_query (lit "example.com") (Some (lit "a.txt")) None 80 two_reads)
      = Returns (Some unterminated_response)
      /\ first_at (CRLF ++ CRLF) (data unterminated_response) 15
      /\ http_get_content unterminated_response = Undefined).
Proof.
  split; split.
  - apply strstr_Some. vm_compute. reflexivity.
  - split; [vm_compute; reflexivity|].
    intros H. vm_compute in H. discriminate H.
  - vm_compute. reflexivity.
  - split; [apply strstr_Some|]; vm_compute; reflexivity.
Qed.

(** C6, amended.  On a buffer holding the string [text] (the bytes before
    the first NUL), [http_get_content] returns the offset of the first byte
    after the first "\r\n\r\n" of [text]; without the separator it returns
    offset 0, the buffer as it is, so on a buffer that is all body it is
    the identity and applying it again changes nothing. *)
Theorem http_get_content_split (response : Buffer) (text : bytes) :
  c_str (data response) = Some text ->
  (forall i, first_at (CRLF ++ CRLF) text i ->
     http_get_content response = Returns (Z.of_nat i + 4)
     /\ Z.of_nat i + 4 <= len text)
  /\ (~ occurs (CRLF ++ CRLF) text ->
        http_get_content response = Returns 0
        /\ content response = Returns (data response)
        /\ (forall n, content {| data := data response; length := n |}
                      = Returns (data response)))
  /\ (exists p, http_get_content response = Returns p /\ 0 <= p <= len text).
Proof.
  intros Hc. unfold content, http_get_content.
  rewrite (strstr_at_start _ text _ Hc).
  split; [|split].
  - intros i Hfirst. rewrite (strstr_first _ _ _ Hfirst). cbn.
    split; [reflexivity|].
    destruct Hfirst as [Hocc _]. apply occurs_at_bound in Hocc.
    unfold len. cbn in Hocc. lia.
  - intros Hno. rewrite (strstr_absent _ _ Hno).
    split; [reflexivity|]. split; [reflexivity|].
    intros n.
    change (data {| data := data response; length := n |}) with (data response).
    rewrite (strstr_at_start _ text _ Hc), (strstr_absent _ _ Hno).
    reflexivity.
  - destruct (strstr text (CRLF ++ CRLF)) as [i|] eqn:Hs; cbn.
    + exists (Z.of_nat i + 4). split; [reflexivity|].
      destruct (strstr_Some _ _ _ Hs) as [Hocc _]. apply occurs_at_bound in Hocc.
      unfold len. cbn in Hocc. lia.
    + exists 0. split; [reflexivity|]. unfold len. lia.
Qed.

Lemma http_get_content_split_witness :
  c_str (data small_response)
  = Some (lit "HTTP/1.0 200 OK" ++ CRLF ++ lit "Content-Length: 4" ++ CRLF
          ++ CRLF ++ lit "body")
  /\ exists p, http_get_content small_response = Returns p /\ 0 <= p <= 42.
Proof.
  assert (Hc : c_str (data small_response)
               = Some (lit "HTTP/1.0 200 OK" ++ CRLF ++ lit "Content-Length: 4"
                       ++ CRLF ++ CRLF ++ lit "body")) by reflexivity.
  split; [exact Hc|].
  exact (proj2 (proj2 (http_get_content_split small_response _ Hc))).
Defined.

(** *** Range support *)

Lemma strcmp_eq_true (a b : bytes) : strcmp_eq a b = true <-> a = b.
Proof.
  unfold strcmp_eq. destruct (List.list_eq_dec ascii_dec a b); split;
    congruence.
Qed.

Lemma lines_from_occurs (n : nat) :
  forall s cur l, (Datatypes.length s <= n)%nat ->
    In l (lines_from cur s) -> exists pre post, cur ++ s = pre ++ l ++ post.
Proof.
  induction n as [|n IH]; intros s cur l Hn Hin.
  - destruct s; [|simpl in Hn; lia]. simpl in Hin. destruct Hin as [<-|[]].
    exists [], []. rewrite !app_nil_r. reflexivity.
  - destruct s as [|c [|d rest]].
    + simpl in Hin. destruct Hin as [<-|[]].
      exists [], []. rewrite !app_nil_r. reflexivity.
    + simpl in Hin. destruct Hin as [<-|[]].
      exists [], []. rewrite !app_nil_r. reflexivity.
    + cbn [lines_from] in Hin.
      destruct (Ascii.eqb c (ascii_of_nat 13) && Ascii.eqb d (ascii_of_nat 10)).
      * destruct Hin as [<-|Hin].
        -- exists [], (c :: d :: rest). reflexivity.
        -- destruct (IH rest [] l) as (pre & post & Heq); [simpl in Hn; lia|exact Hin|].
           simpl in Heq. exists (cur ++ c :: d :: pre), post.
           rewrite Heq, <- app_assoc. reflexivity.
      * destruct (IH (d :: rest) (cur ++ [c]) l) as (pre & post & Heq);
          [simpl in Hn |- *; lia|exact Hin|].
        exists pre, post. rewrite <- Heq, <- app_assoc. reflexivity.
Qed.

Lemma header_line_occurs (line text : bytes) :
  has_header_line line text = true -> occurs line text.
Proof.
  unfold has_header_line. rewrite existsb_exists.
  intros (l & Hin & Heq). apply strcmp_eq_true in Heq. subst l.
  destruct (lines_from_occurs _ _ [] line (Nat.le_refl _) Hin) as (pre & post & Heq).
  simpl in Heq. unfold header_section in Heq.
  destruct (strstr text (CRLF ++ CRLF)) as [i|].
  - exists (Datatypes.length pre), pre, (post ++ drop i text).
    split; [|reflexivity].
    rewrite <- (take_drop i text) at 1. rewrite Heq, <- !app_assoc. reflexivity.
  - exists (Datatypes.length pre), pre, post. auto.
Qed.

(** The detection finds the string anywhere in the buffer. *)
Lemma is_accept_ranges_occurs (response : Buffer) (text : bytes) :
  c_str (data response) = Some text ->
  ((exists p, is_accept_ranges response = Returns (Some p)) <-> occurs ACCEPT_RANGES text)
  /\ (is_accept_ranges response = Returns None <-> ~ occurs ACCEPT_RANGES text).
Proof.
  intros Hc. unfold is_accept_ranges. rewrite (strstr_at_start _ text _ Hc).
  fold ACCEPT_RANGES. rewrite strstr_is_Some.
  destruct (strstr text ACCEPT_RANGES) as [i|]; cbn; split; split.
  - eauto.
  - eauto.
  - discriminate.
  - intros H. destruct H. eauto.
  - intros [p [=]].
  - intros [i [=]].
  - intros _ [i [=]].
  - reflexivity.
Qed.

(** C5, as stated, fails: no [Accept-Ranges: bytes] line in the header
    section, and yet the detection answers with a pointer. *)
Lemma accept_ranges_outside_header_line :
  (has_header_line ACCEPT_RANGES (text_of ranges_in_body) = false
   /\ is_accept_ranges ranges_in_body = Returns (Some 39))
  /\ (has_header_line ACCEPT_RANGES (text_of ranges_in_other_header) = false
      /\ is_accept_ranges ranges_in_other_header = Returns (Some 19)).
Proof. repeat split; vm_compute; reflexivity. Qed.

(** C5, amended.  On a buffer holding the string [text], the detection
    answers with a pointer exactly when "Accept-Ranges: bytes" occurs
    somewhere in [text]; so it does whenever that header line is present,
    and a response in which the string occurs nowhere is planned as one
    without range support (one task). *)
Theorem accept_ranges_detection (response : Buffer) (text : bytes) :
  c_str (data response) = Some text ->
  ((exists p, is_accept_ranges response = Returns (Some p))
     <-> occurs ACCEPT_RANGES text)
  /\ (is_accept_ranges response = Returns None <-> ~ occurs ACCEPT_RANGES text)
  /\ (has_header_line ACCEPT_RANGES text = true ->
        exists p, is_accept_ranges response = Returns (Some p))
  /\ (~ occurs ACCEPT_RANGES text ->
        forall c t s, exists a, is_accept_ranges response = Returns a
                                /\ fst (calc_tasks a c t s) = Returns 1).
Proof.
  intros Hc. destruct (is_accept_ranges_occurs response text Hc) as [Hyes Hno].
  split; [exact Hyes|]. split; [exact Hno|]. split.
  - intros Hline. apply Hyes. apply header_line_occurs. exact Hline.
  - intros Habsent c t s. exists None. split; [apply Hno, Habsent|reflexivity].
Qed.

Lemma accept_ranges_detection_witness :
  c_str (data ranged_response) = Some (text_of ranged_response)
  /\ has_header_line ACCEPT_RANGES (text_of ranged_response) = true
  /\ exists p, is_accept_ranges ranged_response = Returns (Some p).
Proof.
  assert (Hc : c_str (data ranged_response) = Some (text_of ranged_response))
    by reflexivity.
  assert (Hl : has_header_line ACCEPT_RANGES (text_of ranged_response) = true)
    by reflexivity.
  split; [exact Hc|]. split; [exact Hl|].
  exact (proj1 (proj2 (proj2 (accept_ranges_detection ranged_response _ Hc))) Hl).
Defined.

(** *** Content length *)

Lemma strstr_at_offset (pre s rest needle : bytes) :
  Forall (fun c => c <> NUL) s ->
  strstr_at (pre ++ s ++ NUL :: rest) (len pre) needle
  = Returns ((fun i => len pre + Z.of_nat i) <$> strstr s needle).
Proof.
  intros Hs. unfold strstr_at, len.
  rewrite Nat2Z.id, drop_app_length, (c_str_app s rest Hs).
  destruct (Z.leb_spec 0 (Z.of_nat (Datatypes.length pre))); [|lia].
  rewrite !length_app.
  destruct (Z.leb_spec (Z.of_nat (Datatypes.length pre))
              (Z.of_nat (Datatypes.length pre + (Datatypes.length s
                 + Datatypes.length (NUL :: rest))))); [|lia].
  reflexivity.
Qed.

Lemma occurs_at_single (c : ascii) (text : bytes) (j : nat) :
  occurs_at [c] text j -> text !! j = Some c.
Proof.
  intros (pre & post & -> & <-).
  rewrite lookup_app_r by lia. rewrite Nat.sub_diag. reflexivity.
Qed.

Lemma first_char_at (c : ascii) (s rest : bytes) :
  Forall (fun d => d <> c) s -> first_at [c] (s ++ c :: rest) (Datatypes.length s).
Proof.
  intros Hs. split.
  - exists s, rest. auto.
  - intros j Hj Hocc. apply occurs_at_single in Hocc.
    rewrite lookup_app_l in Hocc by exact Hj.
    rewrite Forall_lookup in Hs. apply (Hs j c Hocc). reflexivity.
Qed.

(** The loop on a string that starts at index [i]: it ends at the NUL
    when the index stays an [int] and the digits fit [length]; otherwise
    it is undefined. *)
Lemma collect_digits_cases (s rest acc : bytes) (i j : Z) :
  Forall (fun c => c <> NUL) s ->
  i <= INT_MAX ->
  j <= BUF_SIZE ->
  collect_digits (s ++ NUL :: rest) i acc j
  = if (i + len s <=? INT_MAX)
       && (j + len (filter (fun c => isdigit c = true) s) <=? BUF_SIZE)
    then Returns (acc ++ filter (fun c => isdigit c = true) s,
                  j + len (filter (fun c => isdigit c = true) s))
    else Undefined.
Proof.
  intros Hs. revert acc i j. induction Hs as [|c s Hc _ IH]; intros acc i j Hi Hj.
  - rewrite filter_nil, app_nil_r. unfold len. cbn.
    rewrite !Z.add_0_r.
    destruct (Z.leb_spec i INT_MAX); [|lia].
    destruct (Z.leb_spec j BUF_SIZE); [|lia]. reflexivity.
  - cbn [app collect_digits].
    destruct (Ascii.eqb_spec c NUL); [contradiction|].
    assert (Hlen : len (c :: s) = len s + 1)
      by (unfold len; cbn [Datatypes.length]; lia).
    rewrite Hlen, filter_cons.
    destruct (decide (isdigit c = true)) as [Hd|Hd].
    + rewrite Hd.
      assert (Hcnt : len (c :: filter (fun c => isdigit c = true) s)
                     = len (filter (fun c => isdigit c = true) s) + 1)
        by (unfold len; cbn [Datatypes.length]; lia).
      rewrite Hcnt.
      assert (Hs0 : 0 <= len s) by (unfold len; lia).
      assert (Hf0 : 0 <= len (filter (fun c => isdigit c = true) s))
        by (unfold len; lia).
      destruct (Z.ltb_spec j BUF_SIZE).
      * destruct (Z.leb_spec INT_MAX i).
        -- destruct (Z.leb_spec (i + (len s + 1)) INT_MAX); [lia|reflexivity].
        -- rewrite IH by lia. rewrite <- app_assoc. cbn [app].
           replace (i + 1 + len s) with (i + (len s + 1)) by lia.
           replace (j + 1 + len (filter (fun c => isdigit c = true) s))
             with (j + (len (filter (fun c => isdigit c = true) s) + 1)) by lia.
           reflexivity.
      * destruct (Z.leb_spec (j + (len (filter (fun c => isdigit c = true) s) + 1))
                    BUF_SIZE); [lia|].
        rewrite andb_false_r. reflexivity.
    + destruct (isdigit c); [congruence|].
      assert (Hs0 : 0 <= len s) by (unfold len; lia).
      destruct (Z.leb_spec INT_MAX i).
      * destruct (Z.leb_spec (i + (len s + 1)) INT_MAX); [lia|reflexivity].
      * rewrite IH by lia.
        replace (i + 1 + len s) with (i + (len s + 1)) by lia. reflexivity.
Qed.

Lemma filter_digits (s : bytes) :
  Forall (fun c => isdigit c = true) (filter (fun c => isdigit c = true) s).
Proof.
  induction s as [|c s IH]; [constructor|].
  rewrite filter_cons. destruct (decide (isdigit c = true)); [constructor|]; assumption.
Qed.

Lemma decimal_digits (ds : bytes) (acc : Z) :
  Forall (fun c => isdigit c = true) ds ->
  decimal acc ds = fold_left (fun a c => 10 * a + digit_value c) ds acc.
Proof.
  intros H. revert acc. induction H as [|c ds Hc _ IH]; intros acc; cbn.
  - reflexivity.
  - rewrite Hc. apply IH.
Qed.

Lemma digits_value_nonneg (ds : bytes) :
  Forall (fun c => isdigit c = true) ds -> 0 <= digits_value ds.
Proof.
  unfold digits_value. intros H.
  assert (G : forall acc, 0 <= acc ->
            0 <= fold_left (fun a c => 10 * a + digit_value c) ds acc).
  { induction H as [|c ds Hc _ IH]; intros acc Hacc; cbn; [assumption|].
    apply IH. unfold isdigit in Hc. apply andb_prop in Hc. destruct Hc as [H1 _].
    apply Z.leb_le in H1. unfold digit_value. lia. }
  apply G. lia.
Qed.

Lemma atoi_digits (ds : bytes) :
  Forall (fun c => isdigit c = true) ds ->
  digits_value ds <= INT_MAX ->
  atoi ds = Returns (digits_value ds).
Proof.
  intros Hds Hmax. pose proof (digits_value_nonneg ds Hds) as Hnn.
  unfold atoi.
  assert (Hv : (match skip_spaces ds with
                | c :: rest =>
                    if Ascii.eqb c "-" then - decimal 0 rest
                    else if Ascii.eqb c "+" then decimal 0 rest
                    else decimal 0 (skip_spaces ds)
                | [] => 0
                end) = digits_value ds).
  { destruct Hds as [|c ds Hc Hds]; [reflexivity|].
    assert (Hsp : isspace c = false).
    { unfold isdigit in Hc. unfold isspace.
      apply andb_prop in Hc. destruct Hc as [H1 H2].
      apply Z.leb_le in H1. apply Z.leb_le in H2.
      destruct (Z.eqb_spec (Z.of_nat (nat_of_ascii c)) 32); [lia|].
      destruct (Z.leb_spec (Z.of_nat (nat_of_ascii c)) 13); [lia|].
      rewrite andb_false_r. reflexivity. }
    cbn [skip_spaces]. rewrite Hsp.
    destruct (Ascii.eqb_spec c "-") as [->|_]; [discriminate Hc|].
    destruct (Ascii.eqb_spec c "+") as [->|_]; [discriminate Hc|].
    apply decimal_digits. constructor; assumption. }
  rewrite Hv.
  destruct (Z.leb_spec INT_MIN (digits_value ds)); [|unfold INT_MIN in *; lia].
  destruct (Z.leb_spec (digits_value ds) INT_MAX); [|lia].
  reflexivity.
Qed.

(** X16.  Without the header, [strstr] returns [NULL], which is handed to
    the second [strstr]: undefined, for every response. *)
Lemma get_content_size_header_absent (response : Buffer) (text : bytes) :
  c_str (data response) = Some text ->
  ~ occurs CONTENT_LENGTH text ->
  get_content_size_by_head response = Undefined.
Proof.
  intros Hc Hno. unfold get_content_size_by_head.
  rewrite (strstr_at_start _ text _ Hc). fold CONTENT_LENGTH.
  rewrite (strstr_absent _ _ Hno). reflexivity.
Qed.

(** X17.  With the header but no line feed after it, the second [strstr]
    returns [NULL], which is written through: undefined. *)
Lemma get_content_size_line_open (response : Buffer) (pre line : bytes) :
  c_str (data response) = Some (pre ++ CONTENT_LENGTH ++ line) ->
  first_at CONTENT_LENGTH (pre ++ CONTENT_LENGTH ++ line) (Datatypes.length pre) ->
  Forall (fun c => c <> ascii_of_nat 10) line ->
  get_content_size_by_head response = Undefined.
Proof.
  intros Hc Hfirst Hline. unfold get_content_size_by_head.
  rewrite (strstr_at_start _ _ _ Hc). fold CONTENT_LENGTH.
  rewrite (strstr_first _ _ _ Hfirst). cbn [fmap option_fmap option_map obind].
  destruct (c_str_Some _ _ Hc) as (tail & Hmem & Hnul).
  rewrite Hmem, <- app_assoc.
  apply Forall_app in Hnul. destruct Hnul as [_ Hnul].
  change (Z.of_nat (Datatypes.length pre)) with (len pre).
  rewrite (strstr_at_offset pre (CONTENT_LENGTH ++ line) tail LF Hnul).
  rewrite strstr_absent; [reflexivity|].
  intros [j Hocc]. apply occurs_at_single in Hocc.
  assert (Hall : Forall (fun c => c <> ascii_of_nat 10) (CONTENT_LENGTH ++ line)).
  { apply Forall_app. split; [|assumption].
    unfold CONTENT_LENGTH. repeat constructor; discriminate. }
  rewrite Forall_lookup in Hall. apply (Hall j _ Hocc). reflexivity.
Qed.

(** X14.  With the header and the end of its line, the result is the
    number written by the digits of that line, whatever else stands
    between them, provided that the line, from [Content-Length:] to its
    end, has at most [INT_MAX] characters (the loop counts them with an
    [int]), that the digits are fewer than [BUF_SIZE] and that the number
    is an [int]. *)
Lemma get_content_size_value (response : Buffer) (pre line rest : bytes) :
  let text := pre ++ CONTENT_LENGTH ++ line ++ LF ++ rest in
  let digits := filter (fun c => isdigit c = true) line in
  c_str (data response) = Some text ->
  first_at CONTENT_LENGTH text (Datatypes.length pre) ->
  Forall (fun c => c <> ascii_of_nat 10) line ->
  len (CONTENT_LENGTH ++ line) <= INT_MAX ->
  len digits < BUF_SIZE ->
  digits_value digits <= INT_MAX ->
  exists response',
    get_content_size_by_head response = Returns (digits_value digits, response').
Proof.
  intros text digits Hc Hfirst Hline Hfit Hcount Hmax.
  unfold get_content_size_by_head.
  rewrite (strstr_at_start _ _ _ Hc). fold CONTENT_LENGTH.
  rewrite (strstr_first _ _ _ Hfirst). cbn [fmap option_fmap option_map obind].
  destruct (c_str_Some _ _ Hc) as (tail & Hmem & Hnul).
  unfold text in Hmem, Hnul.
  apply Forall_app in Hnul. destruct Hnul as [Hpre Hnul].
  assert (Hnul' := Hnul).
  rewrite app_assoc in Hnul'. apply Forall_app in Hnul'. destruct Hnul' as [Hhead _].
  rewrite Hmem, <- app_assoc.
  change (Z.of_nat (Datatypes.length pre)) with (len pre).
  rewrite (strstr_at_offset pre _ tail LF Hnul).
  assert (Hlf : first_at LF ((CONTENT_LENGTH ++ line) ++ ascii_of_nat 10 :: rest)
                  (Datatypes.length (CONTENT_LENGTH ++ line))).
  { apply first_char_at. apply Forall_app. split; [|assumption].
    unfold CONTENT_LENGTH. repeat constructor; discriminate. }
  rewrite <- app_assoc in Hlf.
  change (LF ++ rest) with (ascii_of_nat 10 :: rest).
  rewrite (strstr_first _ _ _ Hlf).
  cbn [fmap option_fmap option_map obind].
  set (e := len pre + Z.of_nat (Datatypes.length (CONTENT_LENGTH ++ line))).
  assert (He : Z.to_nat e = (Datatypes.length (pre ++ CONTENT_LENGTH ++ line) + 0)%nat).
  { unfold e, len. rewrite !length_app. lia. }
  replace (pre ++ (CONTENT_LENGTH ++ line ++ ascii_of_nat 10 :: rest) ++ NUL :: tail)
    with ((pre ++ CONTENT_LENGTH ++ line) ++ ascii_of_nat 10 :: rest ++ NUL :: tail)
    by (rewrite <- !app_assoc; reflexivity).
  rewrite He, insert_app_r. cbn [insert list_insert].
  replace (Z.to_nat (len pre)) with (Datatypes.length pre) by (unfold len; lia).
  rewrite <- app_assoc, drop_app_length.
  rewrite app_assoc.
  rewrite (collect_digits_cases (CONTENT_LENGTH ++ line) _ [] 0 0 Hhead)
    by (unfold INT_MAX, BUF_SIZE; lia).
  rewrite filter_app.
  change (filter (fun c => isdigit c = true) CONTENT_LENGTH) with ([] : bytes).
  cbn [app]. fold digits. rewrite !Z.add_0_l.
  destruct (Z.leb_spec (len (CONTENT_LENGTH ++ line)) INT_MAX); [|lia].
  destruct (Z.leb_spec (len digits) BUF_SIZE); [|lia].
  cbn [andb fst snd obind].
  destruct (Z.ltb_spec (len digits) BUF_SIZE); [|lia].
  rewrite atoi_digits.
  - eexists. reflexivity.
  - apply filter_digits.
  - exact Hmax.
Qed.

(** C4.  On a response without [Content-Length:] the function does not
    fail with an error: it passes the [NULL] of the first [strstr] on, which
    is undefined; so the probe of a server that closes without sending
    anything is undefined.  The same happens when no line feed follows the
    header.  With the header line complete the result is the number,
    54321. *)
Theorem get_content_size_without_header :
  get_content_size_by_head no_length_response = Undefined
  /\ get_content_size_by_head empty_response = Undefined
  /\ fst (get_num_tasks (lit "example.com/file") 4 silent_server) = Undefined
  /\ get_content_size_by_head length_54321_open = Undefined
  /\ fst <$> (match get_content_size_by_head length_54321 with
              | Returns r => Some r
              | _ => None
              end) = Some 54321.
Proof. repeat split; vm_compute; reflexivity. Qed.

End ParserProperties.

Section EntryPointProperties.
Import Http.

(** A URL of [BUF_SIZE] characters or more leaves [host] without a NUL. *)
Lemma http_url_too_long (url : bytes) (range : option bytes) (s : state) :
  BUF_SIZE <= len url -> http_url url range s = (Undefined, s).
Proof.
  intros Hlen. unfold http_url, mbind, lift, split_url.
  destruct (Z.leb_spec BUF_SIZE (len url)); [reflexivity|lia].
Qed.

Lemma split_url_no_slash (url : bytes) :
  len url < BUF_SIZE -> ~ occurs SLASH url -> split_url url = Returns None.
Proof.
  intros Hlen Hno. unfold split_url.
  destruct (Z.leb_spec BUF_SIZE (len url)); [lia|].
  fold SLASH. rewrite (strstr_absent _ _ Hno). reflexivity.
Qed.

(** X12.  [http_url] on a URL without '/' (shorter than [BUF_SIZE]): the
    message on stderr and [NULL]; nothing else happens, the network is
    not touched. *)
Lemma http_url_no_slash (url : bytes) (range : option bytes) (s : state) :
  len url < BUF_SIZE -> ~ occurs SLASH url ->
  http_url url range s = (Returns None, snd (emit (split_failure url) s)).
Proof.
  intros Hlen Hno. unfold http_url, mbind, lift.
  rewrite (split_url_no_slash url Hlen Hno). reflexivity.
Qed.

(** X13.  [get_num_tasks] on a URL without '/': after the message it goes
    on to [client_socket] with the whole URL as host, and then hands the
    [NULL] page to [strcat].  It never returns to its caller. *)
Lemma get_num_tasks_no_slash (url : bytes) (threads : Z) (s : state) :
  len url < BUF_SIZE -> ~ occurs SLASH url ->
  get_num_tasks url threads s
  = match client_socket url 80 (snd (emit (split_failure url) s)) with
    | (Returns _, s') => (Undefined, s')
    | (Exits c, s') => (Exits c, s')
    | (Undefined, s') => (Undefined, s')
    end.
Proof.
  intros Hlen Hno. unfold get_num_tasks, mbind, lift.
  rewrite (split_url_no_slash url Hlen Hno).
  cbn [emit ret fst snd].
  destruct (client_socket url 80 _) as [[fd| |] s']; reflexivity.
Qed.

(** C9.  For the URL "example.com", which has no '/', [http_url] prints the
    message and returns [NULL] without touching the network.
    [get_num_tasks] prints the same message and then goes on: it connects
    to the host "example.com" and builds the request from a [NULL] page,
    which is undefined; when the connection is refused the process exits
    in [client_socket].  It does not fail before proceeding. *)
Theorem get_num_tasks_without_slash :
  http_url (lit "example.com") None quiet = (Returns None, after_message)
  /\ get_num_tasks (lit "example.com") 4 quiet = (Undefined, after_connect)
  /\ fst (get_num_tasks (lit "example.com") 4 unreachable_server) = Exits 1.
Proof. repeat split; vm_compute; reflexivity. Qed.

(** The probe on a server with range support and 1000 bytes, 4 threads:
    4 tasks of 250 bytes when a NUL follows the header text.  The buffer
    built by the read loop holds exactly the bytes received; without a NUL
    among them it is not a string, and [strstr] on it is undefined. *)
Lemma get_num_tasks_probe :
  fst (get_num_tasks (lit "example.com/file") 4 ranged_server) = Returns 4
  /\ max_chunk_size (snd (get_num_tasks (lit "example.com/file") 4 ranged_server)) = 250
  /\ fst (get_num_tasks (lit "example.com/file") 4 ranged_server_no_nul) = Undefined.
Proof. repeat split; vm_compute; reflexivity. Qed.

End EntryPointProperties.

(** * Further properties of queue.c *)

Section QueueCoverage.
Import Queue.

Lemma run_ops_history (k : Z) (ops : list op) (q q' : Queue) (got : list ptr) :
  k <= INT_MAX -> inv k q -> run_ops q ops = Done (q', got) ->
  inv k q' /\ pending q ++ puts_of ops = got ++ pending q'.
Proof.
  intros Hk. revert q got. induction ops as [|[item|] ops IH]; intros q got Hinv Hrun.
  - cbn in Hrun. injection Hrun as <- <-. rewrite app_nil_r. auto.
  - cbn [run_ops] in Hrun.
    destruct (queue_put q item) as [q1| |] eqn:Hput; try discriminate.
    cbn [bind] in Hrun.
    destruct (queue_put_inv k q q1 item Hk Hinv Hput) as (Hinv1 & _ & _ & Hp1).
    destruct (IH q1 got Hinv1 Hrun) as [Hinv' Hh]. split; [assumption|].
    cbn [puts_of]. rewrite <- Hh, Hp1, <- app_assoc. reflexivity.
  - cbn [run_ops] in Hrun.
    destruct (queue_get q) as [[x q1]| |] eqn:Hget; try discriminate.
    cbn [bind snd fst] in Hrun.
    destruct (run_ops q1 ops) as [[q2 got2]| |] eqn:Hrest; try discriminate.
    cbn [bind snd fst] in Hrun. injection Hrun as <- <-.
    destruct (queue_get_inv k q q1 x Hk Hinv Hget) as (Hinv1 & _ & _ & Hp1).
    destruct (IH q1 got2 Hinv1 Hrest) as [Hinv' Hh]. split; [assumption|].
    cbn [puts_of]. rewrite Hp1. cbn [app]. rewrite Hh. reflexivity.
Qed.

Lemma run_ops_no_fault (k : Z) (ops : list op) (q : Queue) :
  k <= INT_MAX -> inv k q -> run_ops q ops <> Fault.
Proof.
  intros Hk. revert q. induction ops as [|[item|] ops IH]; intros q Hinv.
  - discriminate.
  - cbn [run_ops].
    destruct (queue_put q item) as [q1| |] eqn:Hput; cbn [bind]; try discriminate.
    + apply IH. apply (queue_put_inv k q q1 item Hk Hinv Hput).
    + destruct (Z.eq_dec (size q) k) as [Heq|Hne].
      * rewrite (queue_put_blocked k q item Hinv Heq) in Hput. discriminate.
      * destruct (queue_put_done k q item Hk Hinv) as (q1 & Hq1 & _).
        { destruct Hinv. lia. }
        congruence.
  - cbn [run_ops].
    destruct (queue_get q) as [[x q1]| |] eqn:Hget; cbn [bind snd fst]; try discriminate.
    + destruct (queue_get_inv k q q1 x Hk Hinv Hget) as (Hinv1 & _).
      specialize (IH q1 Hinv1).
      destruct (run_ops q1 ops) as [[q2 got2]| |]; cbn [bind]; congruence.
    + destruct (Z.eq_dec (size q) 0) as [Heq|Hne].
      * rewrite (queue_get_blocked k q Hinv Heq) in Hget. discriminate.
      * destruct (queue_get_done k q Hk Hinv) as (x & q1 & Hq1 & _).
        { destruct Hinv. lia. }
        congruence.
Qed.

(** X1.  Whatever the order of the completed calls of [queue_put] and
    [queue_get] on a queue of capacity [k], the items that were waiting
    followed by the items put are the items got followed by the items
    still waiting: the gets return the puts in order, none twice and none
    lost.  No such history accesses memory outside the slot array. *)
Theorem queue_history (k : Z) (q q' : Queue) (ops : list op) (got : list ptr) :
  0 < k <= INT_MAX ->
  reachable k q ->
  run_ops q ops = Done (q', got) ->
  pending q ++ puts_of ops = got ++ pending q'
  /\ 0 <= size q' <= k
  /\ reachable k q'
  /\ (forall more, run_ops q' more <> Fault).
Proof.
  intros Hk Hreach Hrun.
  assert (Hinv : inv k q) by (apply reachable_inv; [lia|assumption]).
  destruct (run_ops_history k ops q q' got) as [Hinv' Hh]; [lia|assumption..|].
  split; [exact Hh|]. split; [apply (inv_size k q' Hinv')|]. split.
  - clear Hh Hinv Hinv'. revert q got Hreach Hrun.
    induction ops as [|[item|] ops IH]; intros q got Hreach Hrun.
    + cbn in Hrun. injection Hrun as <- <-. exact Hreach.
    + cbn [run_ops] in Hrun.
      destruct (queue_put q item) as [q1| |] eqn:Hput; try discriminate.
      apply (IH q1 got); [apply (reach_put k q item q1 Hreach Hput)|exact Hrun].
    + cbn [run_ops] in Hrun.
      destruct (queue_get q) as [[x q1]| |] eqn:Hget; try discriminate.
      cbn [bind snd fst] in Hrun.
      destruct (run_ops q1 ops) as [[q2 got2]| |] eqn:Hrest; try discriminate.
      cbn [bind snd fst] in Hrun. injection Hrun as <- <-.
      apply (IH q1 got2); [apply (reach_get k q x q1 Hreach Hget)|exact Hrest].
  - intros more. apply (run_ops_no_fault k more q'); [lia|assumption].
Qed.

Lemma queue_history_witness :
  0 < 2 <= INT_MAX
  /\ reachable 2 fresh2
  /\ run_ops fresh2 mixed_ops = Done (after_mixed_ops, [4])
  /\ pending fresh2 ++ puts_of mixed_ops = [4] ++ pending after_mixed_ops.
Proof.
  assert (Hk : 0 < 2 <= INT_MAX) by (unfold INT_MAX; lia).
  assert (Hr : reachable 2 fresh2) by (apply reach_alloc; reflexivity).
  assert (Hrun : run_ops fresh2 mixed_ops = Done (after_mixed_ops, [4]))
    by (vm_compute; reflexivity).
  split; [exact Hk|]. split; [exact Hr|]. split; [exact Hrun|].
  exact (proj1 (queue_history 2 fresh2 after_mixed_ops mixed_ops [4] Hk Hr Hrun)).
Defined.

(** X2.  [queue_alloc] with a negative size returns a queue all the same:
    [malloc] is asked for more than it can give and [sem_init] refuses the
    value, so the queue has no slot and its [empty] semaphore is not
    initialised.  Every [queue_put] on it waits on that semaphore, which
    is undefined; [queue_get] blocks. *)
Theorem queue_alloc_negative (k : Z) :
  INT_MIN <= k < 0 ->
  exists q, queue_alloc k = Some q
    /\ task q = [] /\ empty q = None /\ full q = Some 0 /\ size q = 0
    /\ (forall item, queue_put q item = Fault)
    /\ queue_get q = Blocked.
Proof.
  intros Hk. eexists. split; [reflexivity|].
  assert (Hslots : malloc_slots k = []).
  { unfold malloc_slots.
    assert (Hm : (8 * (k mod SIZE_MOD)) mod SIZE_MOD = SIZE_MOD + 8 * k).
    { unfold SIZE_MOD, INT_MIN in *.
      replace (k mod 2 ^ 64) with (2 ^ 64 + k).
      - replace (8 * (2 ^ 64 + k)) with (2 ^ 64 + 8 * k + 7 * 2 ^ 64) by lia.
        rewrite Z.mod_add by lia. apply Z.mod_small. lia.
      - symmetry. replace (2 ^ 64 + k) with (k + 1 * 2 ^ 64) by lia.
        rewrite <- (Z.mod_add k 1 (2 ^ 64)) by lia. apply Z.mod_small. lia. }
    rewrite Hm. destruct (Z.leb_spec (SIZE_MOD + 8 * k) PTRDIFF_MAX) as [Hle|_];
      [|reflexivity].
    unfold SIZE_MOD, PTRDIFF_MAX, INT_MIN in *. lia. }
  assert (Hsem : sem_init k = None).
  { unfold sem_init.
    assert (Hm : k mod UINT_MOD = UINT_MOD + k).
    { unfold UINT_MOD, INT_MIN in *.
      replace (2 ^ 32 + k) with (k + 1 * 2 ^ 32) by lia.
      rewrite <- (Z.mod_add k 1 (2 ^ 32)) by lia. apply Z.mod_small. lia. }
    rewrite Hm. destruct (Z.leb_spec (UINT_MOD + k) SEM_VALUE_MAX) as [Hle|_];
      [|reflexivity].
    unfold UINT_MOD, SEM_VALUE_MAX, INT_MIN in *. lia. }
  cbn [task empty full size].
  split; [exact Hslots|]. split; [exact Hsem|]. split; [reflexivity|].
  split; [reflexivity|]. split.
  - intros item. unfold queue_put. cbn [empty]. rewrite Hsem. reflexivity.
  - reflexivity.
Qed.

Lemma queue_alloc_negative_witness :
  INT_MIN <= -1 < 0
  /\ exists q, queue_alloc (-1) = Some q /\ queue_put q 7 = Fault.
Proof.
  assert (Hk : INT_MIN <= -1 < 0) by (unfold INT_MIN; lia).
  split; [exact Hk|].
  destruct (queue_alloc_negative (-1) Hk) as (q & Hq & _ & _ & _ & _ & Hput & _).
  exists q. split; [exact Hq|apply Hput].
Defined.

(** X3.  A completed [queue_get] returns the item of slot 0, moves the
    other waiting items one slot down, writes [NULL] into the slot that
    became free and leaves the slots behind it as they were. *)
Theorem queue_get_slots (k : Z) (q q' : Queue) (item : ptr) :
  0 < k <= INT_MAX ->
  reachable k q ->
  queue_get q = Done (item, q') ->
  task q !! 0%nat = Some item
  /\ task q' = pending q' ++ NULL :: drop (Z.to_nat (size q)) (task q)
  /\ pending q = item :: pending q'
  /\ length (task q') = length (task q).
Proof.
  intros Hk Hreach Hget.
  assert (Hinv : inv k q) by (apply reachable_inv; [lia|assumption]).
  destruct (queue_get_inv k q q' item) as (Hinv' & Hpos & Hsz & Hp); [lia|assumption..|].
  destruct (pending_split k q Hinv) as (rest & Ht & Hlp & Hlr).
  assert (Hrest : drop (Z.to_nat (size q)) (task q) = rest).
  { rewrite Ht. replace (Z.to_nat (size q)) with (length (pending q)) by lia.
    apply drop_app_length. }
  rewrite Hrest.
  (* replay the call on the split array *)
  pose proof Hget as Hrun. unfold queue_get in Hrun.
  destruct Hinv as [Hf He Hs Hl Hm].
  rewrite Hf, He, Hm, Ht, Hp in Hrun.
  unfold sem_wait in Hrun. destruct (Z.ltb_spec 0 (size q)); [|lia].
  cbn [bind pthread_mutex_lock] in Hrun.
  change ((item :: pending q') ++ rest) with ([] ++ item :: pending q' ++ rest) in Hrun.
  rewrite (load_app_middle [] item (pending q' ++ rest) 0) in Hrun by reflexivity.
  cbn [bind] in Hrun.
  assert (Hlen : Z.of_nat (length (pending q')) = size q - 1).
  { rewrite Hp in Hlp. simpl length in Hlp. lia. }
  replace (Z.to_nat (size q - 1)) with (length (pending q')) in Hrun by lia.
  destruct (shift_loop_spec (pending q') [] item rest 1) as [v Hv]; [reflexivity|lia|].
  rewrite Hv in Hrun. cbn [bind app] in Hrun.
  assert (Hmod : (size q - 1) mod SIZE_MOD = size q - 1).
  { apply Z.mod_small. unfold SIZE_MOD, INT_MAX in *. lia. }
  rewrite Hmod in Hrun.
  rewrite store_app_middle in Hrun by lia.
  cbn [bind pthread_mutex_unlock sem_post] in Hrun.
  destruct (Z.ltb_spec (k - size q) SEM_VALUE_MAX) as [_|Hge];
    [|unfold SEM_VALUE_MAX, INT_MAX in *; lia].
  cbn [bind] in Hrun. injection Hrun as Hq'.
  assert (Htask : task q' = pending q' ++ NULL :: rest).
  { rewrite <- Hq' at 1. reflexivity. }
  split; [rewrite Ht, Hp; reflexivity|].
  split; [exact Htask|]. split; [exact Hp|].
  rewrite Htask, Ht, Hp, !length_app. simpl. lia.
Qed.

Lemma queue_get_slots_witness :
  0 < 3 <= INT_MAX
  /\ reachable 3 filled3
  /\ exists q', queue_get filled3 = Done (11, q')
       /\ task q' = pending q' ++ NULL :: drop (Z.to_nat (size filled3)) (task filled3).
Proof.
  assert (Hk : 0 < 3 <= INT_MAX) by (unfold INT_MAX; lia).
  assert (Hr : reachable 3 filled3).
  { apply (reach_put 3 {| full := Some 2; empty := Some 1; task := [11; 22; 0];
                          size := 2; mutex := false |} 33); [|reflexivity].
    apply (reach_put 3 {| full := Some 1; empty := Some 2; task := [11; 0; 0];
                          size := 1; mutex := false |} 22); [|reflexivity].
    apply (reach_put 3 fresh3 11); [|reflexivity].
    apply reach_alloc. reflexivity. }
  split; [exact Hk|]. split; [exact Hr|].
  eexists. split; [reflexivity|].
  refine (proj1 (proj2 (queue_get_slots 3 filled3 _ 11 Hk Hr _))). reflexivity.
Defined.

End QueueCoverage.

(** * Further properties of queue.c under several threads *)

Section ThreadCoverage.
Import Queue Threads.

Lemma tally_pair (f : pc -> Z) (ts : list pc) (i j : nat) (pi pj : pc) :
  (forall a, 0 <= f a) -> i <> j ->
  ts !! i = Some pi -> ts !! j = Some pj -> f pi + f pj <= tally f ts.
Proof.
  intros Hf. revert i j. induction ts as [|a ts IH]; intros i j Hne Hi Hj;
    [discriminate|].
  pose proof (tally_nonneg f ts Hf) as Hts. pose proof (Hf a) as Ha.
  destruct i as [|i], j as [|j]; simpl in Hi, Hj |- *.
  - congruence.
  - injection Hi as ->. pose proof (tally_lookup f ts j pj Hf Hj). lia.
  - injection Hj as ->. pose proof (tally_lookup f ts i pi Hf Hi). lia.
  - assert (i <> j) by congruence. specialize (IH i j H Hi Hj). lia.
Qed.

Lemma tally_positive (f : pc -> Z) (ts : list pc) :
  0 < tally f ts -> exists i p, ts !! i = Some p /\ 0 < f p.
Proof.
  induction ts as [|a ts IH]; cbn [tally]; [lia|]. intros Hpos.
  destruct (Z.lt_ge_cases 0 (f a)) as [Ha|Ha].
  - exists O, a. auto.
  - destruct IH as (i & p & Hi & Hp); [lia|]. exists (S i), p. auto.
Qed.

(** X6.  Mutual exclusion: in every interleaving at most one thread is
    between [pthread_mutex_lock] and [pthread_mutex_unlock] of the queue,
    and the mutex is held exactly when there is one. *)
Theorem threads_mutual_exclusion (k : Z) (n : nat) (sys : system) :
  0 < k <= INT_MAX -> reaches k n sys ->
  (forall i j pi pj,
     threads sys !! i = Some pi -> threads sys !! j = Some pj ->
     inside pi = 1 -> inside pj = 1 -> i = j)
  /\ (mutex (queue sys) = true <->
      exists i p, threads sys !! i = Some p /\ inside p = 1).
Proof.
  intros Hk Hr.
  assert (Hinv : sys_inv k sys) by (apply (reaches_sys_inv k n); [lia|assumption]).
  pose proof (si_mutex k sys Hinv) as Hm.
  assert (Hle : tally inside (threads sys) <= 1).
  { rewrite <- Hm. destruct (mutex (queue sys)); cbn; lia. }
  split.
  - intros i j pi pj Hi Hj Hpi Hpj. destruct (Nat.eq_dec i j) as [|Hne]; [assumption|].
    pose proof (tally_pair inside _ i j pi pj inside_nonneg Hne Hi Hj). lia.
  - split.
    + intros Hheld. rewrite Hheld in Hm. cbn in Hm.
      destruct (tally_positive inside (threads sys)) as (i & p & Hi & Hp); [lia|].
      exists i, p. split; [assumption|]. destruct p; cbn in Hp |- *; lia.
    + intros (i & p & Hi & Hp).
      pose proof (tally_lookup inside _ i p inside_nonneg Hi).
      destruct (mutex (queue sys)); [reflexivity|]. cbn in Hm. lia.
Qed.

Lemma threads_mutual_exclusion_witness :
  0 < 1 <= INT_MAX
  /\ reaches 1 2 inside_put
  /\ (mutex (queue inside_put) = true <->
      exists i p, threads inside_put !! i = Some p /\ inside p = 1).
Proof.
  assert (Hk : 0 < 1 <= INT_MAX) by (unfold INT_MAX; lia).
  assert (Hs : schedule two_threads entering_put = Some inside_put)
    by (vm_compute; reflexivity).
  assert (Hr : reaches 1 2 inside_put).
  { apply (schedule_reaches 1 2 entering_put two_threads inside_put); [|exact Hs].
    apply reach_init. reflexivity. }
  split; [exact Hk|]. split; [exact Hr|].
  exact (proj2 (threads_mutual_exclusion 1 2 inside_put Hk Hr)).
Defined.

Lemma threads_bounded_fifo_witness :
  0 < 1 <= INT_MAX
  /\ reaches 1 2 handed_over
  /\ 0 <= size (queue handed_over) <= 1
  /\ entered handed_over = departed handed_over ++ pending (queue handed_over).
Proof.
  assert (Hk : 0 < 1 <= INT_MAX) by (unfold INT_MAX; lia).
  assert (Hs : schedule two_threads handoff = Some handed_over)
    by (vm_compute; reflexivity).
  assert (Hr : reaches 1 2 handed_over).
  { apply (schedule_reaches 1 2 handoff two_threads handed_over); [|exact Hs].
    apply reach_init. reflexivity. }
  split; [exact Hk|]. split; [exact Hr|].
  destruct (threads_bounded_fifo 1 2 handed_over Hk Hr) as (Hb & Ho & _).
  split; [exact Hb|exact Ho].
Defined.

Lemma threads_stuck_only_waiting_witness :
  0 < 1 <= INT_MAX
  /\ reaches 1 2 waiting_producer
  /\ (forall i p, threads waiting_producer !! i = Some p ->
        action (queue waiting_producer) p = Blocked)
  /\ size (queue waiting_producer) = 1.
Proof.
  assert (Hk : 0 < 1 <= INT_MAX) by (unfold INT_MAX; lia).
  assert (Hs : schedule two_threads producer_waits = Some waiting_producer)
    by (vm_compute; reflexivity).
  assert (Hr : reaches 1 2 waiting_producer).
  { apply (schedule_reaches 1 2 producer_waits two_threads waiting_producer);
      [|exact Hs].
    apply reach_init. reflexivity. }
  assert (Hstuck : forall i p, threads waiting_producer !! i = Some p ->
            action (queue waiting_producer) p = Blocked).
  { intros [|[|i]] p Hi; cbn in Hi; try discriminate; injection Hi as <-; reflexivity. }
  split; [exact Hk|]. split; [exact Hr|]. split; [exact Hstuck|].
  apply (proj1 (proj2 (threads_stuck_only_waiting 1 2 waiting_producer Hk Hr Hstuck))).
  exists 0%nat, 6. reflexivity.
Defined.

End ThreadCoverage.

(** * Further properties of http.c *)

Section RequestCoverage.
Import Http.

Lemma len_app (a b : bytes) : len (a ++ b) = len a + len b.
Proof. unfold len. rewrite length_app. lia. Qed.

Lemma len_nonneg (a : bytes) : 0 <= len a.
Proof. unfold len. lia. Qed.

Local Ltac lengths :=
  repeat rewrite len_app in *;
  repeat match goal with
         | |- context [len (lit ?s)] =>
             let n := eval vm_compute in (len (lit s)) in
             change (len (lit s)) with n
         | H : context [len (lit ?s)] |- _ =>
             let n := eval vm_compute in (len (lit s)) in
             change (len (lit s)) with n in H
         end;
  change (len CRLF) with 2 in *; change (len []) with 0 in *;
  repeat match goal with
         | |- context [len ?x] =>
             lazymatch goal with
             | _ : 0 <= len x |- _ => fail
             | _ => pose proof (len_nonneg x)
             end
         | _ : context [len ?x] |- _ =>
             lazymatch goal with
             | _ : 0 <= len x |- _ => fail
             | _ => pose proof (len_nonneg x)
             end
         end.

Local Ltac cat_step :=
  match goal with
  | |- context [strcat ?c ?a ?b] =>
      unfold strcat at 1;
      destruct (Z.ltb_spec (len a + len b) c); cbn [obind]
  end.

Lemma pack_http_request_cases (host page : bytes) (range : option bytes)
    (method : bytes) :
  pack_http_request host (Some page) range method
  = (if len (request_text host page range method) <? 1024
     then Returns (request_text host page range method)
     else Undefined).
Proof.
  unfold pack_http_request, request_text, request_verb, range_header.
  cbv zeta.
  destruct (strcmp_eq method HEAD);
    destruct range as [r|]; [destruct (Z.ltb_spec 0 (len r))| |
                             destruct (Z.ltb_spec 0 (len r))|];
    repeat cat_step;
    match goal with
    | |- _ = (if ?a <? ?b then _ else _) => destruct (Z.ltb_spec a b)
    end;
    try reflexivity;
    try (rewrite <- ?app_assoc; reflexivity);
    exfalso; lengths; lia.
Qed.

(** X7.  [pack_http_request] writes the request line with the method and
    the page, the [Host] line, a [Range: bytes=] line exactly when [range]
    is neither [NULL] nor empty, the [User-Agent] line and the blank line,
    provided that the request and its NUL fit the 1024 characters of the
    packet; a longer request overruns the packet, and so does a [NULL]
    page, both undefined. *)
Theorem pack_http_request_text (host page : bytes) (range : option bytes)
    (method : bytes) :
  pack_http_request host (Some page) range method
  = (if len (request_text host page range method) <? 1024
     then Returns (request_text host page range method)
     else Undefined)
  /\ pack_http_request host None range method = Undefined.
Proof.
  split; [apply pack_http_request_cases|].
  unfold pack_http_request. cbv zeta.
  destruct (strcmp_eq method HEAD); reflexivity.
Qed.

End RequestCoverage.

Section TransportCoverage.
Import Http.

Lemma len_take_all (n : Z) (c : bytes) :
  len c <= n -> take (Z.to_nat n) c = c.
Proof. intros H. apply take_ge. unfold len in H. lia. Qed.

Lemma len_realloc (d : bytes) (n : Z) : 0 <= n -> len (realloc d n) = n.
Proof.
  intros Hn. unfold realloc, len.
  rewrite length_app, length_take, length_replicate. lia.
Qed.

(** One turn of the read loop appends what [read] delivered. *)
Lemma read_loop_turn (c : bytes) (answers : list read_result) (response : Buffer)
    (acc : bytes) :
  well_sized c ->
  length response = len acc ->
  take (Z.to_nat (len acc)) (data response) = acc ->
  len acc + len c < SIZE_MOD ->
  read_loop (Received c :: answers) response
  = read_loop answers {| data := acc ++ c; length := len acc + len c |}.
Proof.
  intros [Hpos Hmax] Hlen Htake Hsmall. cbn [read_loop].
  rewrite (len_take_all BUFSIZ c Hmax).
  destruct (Z.gtb_spec (len c) 0) as [_|Hle]; [|lia].
  rewrite Hlen.
  pose proof (len_nonneg acc) as Hacc.
  rewrite (Z.mod_small (len acc + len c)) by lia.
  unfold memcpy.
  replace (len acc + len c - len c) with (len acc) by lia.
  rewrite len_realloc by lia.
  destruct (Z.leb_spec 0 (len acc)); [|lia].
  destruct (Z.leb_spec (len acc + len c) (len acc + len c)); [|lia].
  cbn [andb].
  assert (Hpre : take (Z.to_nat (len acc)) (realloc (data response) (len acc + len c))
                 = acc).
  { unfold realloc.
    assert (Hl : (Z.to_nat (len acc) <= Datatypes.length (data response))%nat).
    { rewrite <- Htake at 1. unfold len. rewrite Nat2Z.id, length_take. lia. }
    rewrite take_app_le by (rewrite length_take; lia).
    rewrite take_take.
    replace (Z.to_nat (len acc) `min` Z.to_nat (len acc + len c))%nat
      with (Z.to_nat (len acc)) by lia.
    exact Htake. }
  assert (Hpost : drop (Z.to_nat (len acc + len c))
                    (realloc (data response) (len acc + len c)) = []).
  { apply drop_ge.
    assert (Hr : len (realloc (data response) (len acc + len c)) = len acc + len c)
      by (apply len_realloc; lia).
    unfold len in Hr at 1. lia. }
  rewrite Hpre, Hpost, app_nil_r. reflexivity.
Qed.

Lemma read_loop_stops (rest : list read_result) (response : Buffer) :
  stops rest -> read_loop rest response = (Returns response, tail rest).
Proof.
  destruct rest as [|[c|] rest]; cbn [stops]; intros H; [reflexivity| |reflexivity].
  subst c. reflexivity.
Qed.

Lemma read_loop_chunks (chunks : list bytes) (rest : list read_result)
    (acc : bytes) :
  Forall well_sized chunks -> stops rest ->
  len acc + len (concat chunks) < SIZE_MOD ->
  read_loop (map Received chunks ++ rest)
    {| data := acc; length := len acc |}
  = (Returns {| data := acc ++ concat chunks;
                length := len acc + len (concat chunks) |}, tail rest).
Proof.
  intros Hall Hstop. revert acc. induction Hall as [|c chunks Hc _ IH]; intros acc Hsmall.
  - cbn [map app concat]. rewrite (read_loop_stops rest _ Hstop).
    rewrite app_nil_r. change (len []) with 0. rewrite Z.add_0_r. reflexivity.
  - cbn [map app concat] in Hsmall |- *. rewrite len_app in Hsmall.
    pose proof (len_nonneg (concat chunks)). pose proof (len_nonneg acc).
    destruct Hc as [Hpos Hmax].
    rewrite (read_loop_turn c _ _ acc); cbn [data length];
      [|split; assumption|reflexivity| |lia].
    + rewrite <- len_app. rewrite IH by (rewrite len_app; lia).
      rewrite <- app_assoc, !len_app. do 3 f_equal. lia.
    + apply take_ge. unfold len. lia.
Qed.

(** From the fresh buffer of [BUFSIZ] zeroed bytes. *)
Lemma read_loop_fresh (chunks : list bytes) (rest : list read_result) :
  Forall well_sized chunks -> stops rest ->
  len (concat chunks) < SIZE_MOD ->
  read_loop (map Received chunks ++ rest)
    {| data := replicate (Z.to_nat BUFSIZ) NUL; length := 0 |}
  = (Returns (received chunks), tail rest).
Proof.
  intros Hall Hstop Hsmall. destruct Hall as [|c chunks Hc Hall].
  - cbn [map app received]. apply read_loop_stops, Hstop.
  - cbn [map app received].
    cbn [concat] in Hsmall. rewrite len_app in Hsmall.
    pose proof (len_nonneg (concat chunks)).
    rewrite (read_loop_turn c _ _ []); cbn [data length app];
      [|assumption|reflexivity|reflexivity|change (len []) with 0; lia].
    change (len [] + len c) with (len c).
    rewrite (read_loop_chunks chunks rest c Hall Hstop) by lia.
    cbn [concat]. rewrite len_app. reflexivity.
Qed.

(** X8.  The read loop gathers everything the calls of [read] deliver
    before the first call that returns 0 or -1, in order, into [data], and
    counts it in [length]; nothing follows the bytes received.  When
    nothing is delivered the buffer stays the zeroed block with length
    0.  What comes after the end of the loop is not read. *)
Theorem read_loop_accumulates (chunks : list bytes) (rest : list read_result) :
  Forall well_sized chunks -> stops rest ->
  len (concat chunks) < SIZE_MOD ->
  read_loop (map Received chunks ++ rest)
    {| data := replicate (Z.to_nat BUFSIZ) NUL; length := 0 |}
  = (Returns (received chunks), tail rest)
  /\ (chunks <> [] ->
      data (received chunks) = concat chunks
      /\ length (received chunks) = len (data (received chunks))).
Proof.
  intros Hall Hstop Hsmall. split; [apply read_loop_fresh; assumption|].
  intros Hne. destruct chunks; [contradiction|]. split; reflexivity.
Qed.

Lemma read_loop_accumulates_witness :
  Forall well_sized [lit "HTTP/1.0 200 OK" ++ CRLF ++ CRLF; lit "hello"]
  /\ stops [ReadFailed; Received (lit "late")]
  /\ read_loop (map Received [lit "HTTP/1.0 200 OK" ++ CRLF ++ CRLF; lit "hello"]
                ++ [ReadFailed; Received (lit "late")])
       {| data := replicate (Z.to_nat BUFSIZ) NUL; length := 0 |}
     = (Returns {| data := lit "HTTP/1.0 200 OK" ++ CRLF ++ CRLF ++ lit "hello";
                   length := 24 |},
        [Received (lit "late")]).
Proof.
  assert (Hall : Forall well_sized
                   [lit "HTTP/1.0 200 OK" ++ CRLF ++ CRLF; lit "hello"])
    by (repeat constructor; vm_compute; congruence).
  assert (Hstop : stops [ReadFailed; Received (lit "late")]) by exact I.
  assert (Hsmall : len (concat [lit "HTTP/1.0 200 OK" ++ CRLF ++ CRLF; lit "hello"])
                   < SIZE_MOD) by (vm_compute; reflexivity).
  split; [exact Hall|]. split; [exact Hstop|].
  exact (proj1 (read_loop_accumulates _ _ Hall Hstop Hsmall)).
Defined.

Lemma client_socket_ok (host : bytes) (port : Z) (s : state) :
  cooperative s ->
  client_socket host port s
  = (Returns (socket_fd s),
     snd (emit (Connect host port (socket_fd s) (connect_rc s)) s)).
Proof.
  intros (Hg & Hfd & Hc & _). unfold client_socket, mbind, get. rewrite Hg.
  cbn [Z.eqb].
  destruct (Z.ltb_spec (socket_fd s) 0); [lia|].
  cbn [emit]. destruct (Z.eqb_spec (connect_rc s) (-1)); [contradiction|].
  reflexivity.
Qed.

Lemma send_http_request_ok (fd : Z) (request : bytes) (s : state) :
  0 <= write_rc s ->
  send_http_request fd request s
  = (Returns (write_rc s), snd (emit (Write fd request (write_rc s)) s)).
Proof.
  intros Hw. unfold send_http_request, mbind, get. cbn [emit].
  destruct (Z.ltb_spec (write_rc s) 0); [lia|]. reflexivity.
Qed.

Lemma receive_all_ok (s : state) (chunks : list bytes) (rest : list read_result) :
  delivers s chunks rest ->
  receive_all s = (Returns (received chunks), snd (set_reads (tail rest) s)).
Proof.
  intros (Hr & Hall & Hstop & Hsmall). unfold receive_all, mbind, get.
  rewrite Hr, (read_loop_fresh chunks rest Hall Hstop Hsmall). reflexivity.
Qed.

(** The state after a completed exchange. *)
Lemma http_query_run (host page : bytes) (range : option bytes) (port : Z)
    (s : state) (chunks : list bytes) (rest : list read_result) :
  cooperative s -> delivers s chunks rest ->
  len (request_text host page range GET) < 1024 ->
  http_query host (Some page) range port s
  = (Returns (Some (received chunks)),
     {| max_chunk_size := max_chunk_size s; getaddrinfo_rc := getaddrinfo_rc s;
        socket_fd := socket_fd s; connect_rc := connect_rc s;
        write_rc := write_rc s; reads := tail rest;
        log := log s ++ [Connect host port (socket_fd s) (connect_rc s);
                         Write (socket_fd s) (request_text host page range GET)
                           (write_rc s);
                         Close (socket_fd s)] |}).
Proof.
  intros Hcoop Hdel Hfit. unfold http_query, mbind.
  rewrite (client_socket_ok host port s Hcoop). cbn [snd emit].
  unfold lift at 1. rewrite pack_http_request_cases.
  destruct (Z.ltb_spec (len (request_text host page range GET)) 1024); [|lia].
  rewrite send_http_request_ok by (cbn [write_rc]; apply Hcoop).
  cbn [snd emit write_rc].
  rewrite (receive_all_ok _ chunks rest) by exact Hdel.
  cbn [snd set_reads emit ret max_chunk_size getaddrinfo_rc socket_fd connect_rc
       write_rc reads log].
  rewrite <- !app_assoc. reflexivity.
Qed.

(** X9.  An exchange whose system calls succeed: [http_query] connects,
    writes the GET request for the page once (however many bytes [write]
    reports), reads to the end of the stream, closes the socket, and
    returns the buffer with all the bytes received; it does nothing else,
    and what the peer sends after the end of the loop stays unread. *)
Theorem http_query_exchange (host page : bytes) (range : option bytes) (port : Z)
    (s : state) (chunks : list bytes) (rest : list read_result) :
  cooperative s -> delivers s chunks rest ->
  len (request_text host page range GET) < 1024 ->
  fst (http_query host (Some page) range port s) = Returns (Some (received chunks))
  /\ log (snd (http_query host (Some page) range port s))
     = log s ++ [Connect host port (socket_fd s) (connect_rc s);
                 Write (socket_fd s) (request_text host page range GET) (write_rc s);
                 Close (socket_fd s)]
  /\ reads (snd (http_query host (Some page) range port s)) = tail rest
  /\ max_chunk_size (snd (http_query host (Some page) range port s))
     = max_chunk_size s.
Proof.
  intros Hcoop Hdel Hfit.
  rewrite (http_query_run host page range port s chunks rest Hcoop Hdel Hfit).
  repeat split.
Qed.

Lemma two_reads_delivers :
  delivers two_reads [lit "HTTP/1.0 200 OK" ++ CRLF ++ CRLF; lit "hello"] [].
Proof.
  split; [reflexivity|]. split; [|split; [exact I|vm_compute; reflexivity]].
  repeat constructor; vm_compute; congruence.
Qed.

Lemma two_reads_cooperative : cooperative two_reads.
Proof. repeat split; cbn; lia. Qed.

Lemma http_query_exchange_witness :
  cooperative two_reads
  /\ delivers two_reads [lit "HTTP/1.0 200 OK" ++ CRLF ++ CRLF; lit "hello"] []
  /\ len (request_text (lit "example.com") (lit "a.txt") None GET) < 1024
  /\ fst (http_query (lit "example.com") (Some (lit "a.txt")) None 80 two_reads)
     = Returns (Some {| data := lit "HTTP/1.0 200 OK" ++ CRLF ++ CRLF ++ lit "hello";
                        length := 24 |}).
Proof.
  assert (Hfit : len (request_text (lit "example.com") (lit "a.txt") None GET) < 1024)
    by (vm_compute; reflexivity).
  split; [exact two_reads_cooperative|]. split; [exact two_reads_delivers|].
  split; [exact Hfit|].
  exact (proj1 (http_query_exchange (lit "example.com") (lit "a.txt") None 80
                  two_reads _ [] two_reads_cooperative two_reads_delivers Hfit)).
Defined.

Lemma unterminated_content (b : Buffer) :
  Forall (fun c => c <> NUL) (data b) -> http_get_content b = Undefined.
Proof.
  intros Hall. unfold http_get_content.
  rewrite strstr_at_unterminated; [reflexivity|]. apply c_str_None. exact Hall.
Qed.

(** X10.  The buffer that [http_query] returns holds the bytes received
    and nothing after them.  When none of them is NUL, [data] is not a
    string, and [http_get_content], which hands it to [strstr], is
    undefined on it. *)
Theorem http_query_unterminated (host page : bytes) (range : option bytes)
    (port : Z) (s : state) (chunks : list bytes) (rest : list read_result) :
  cooperative s -> delivers s chunks rest ->
  len (request_text host page range GET) < 1024 ->
  chunks <> [] ->
  Forall (fun c => c <> NUL) (concat chunks) ->
  exists b,
    fst (http_query host (Some page) range port s) = Returns (Some b)
    /\ data b = concat chunks
    /\ c_str (data b) = None
    /\ http_get_content b = Undefined.
Proof.
  intros Hcoop Hdel Hfit Hne Hall.
  rewrite (http_query_run host page range port s chunks rest Hcoop Hdel Hfit).
  exists (received chunks). destruct chunks as [|c chunks]; [contradiction|].
  cbn [fst received data]. split; [reflexivity|]. split; [reflexivity|].
  split; [apply c_str_None; exact Hall|].
  apply unterminated_content. exact Hall.
Qed.

Lemma http_query_unterminated_witness :
  cooperative two_reads
  /\ delivers two_reads [lit "HTTP/1.0 200 OK" ++ CRLF ++ CRLF; lit "hello"] []
  /\ exists b,
       fst (http_query (lit "example.com") (Some (lit "a.txt")) None 80 two_reads)
       = Returns (Some b)
       /\ http_get_content b = Undefined.
Proof.
  assert (Hfit : len (request_text (lit "example.com") (lit "a.txt") None GET) < 1024)
    by (vm_compute; reflexivity).
  assert (Hne : [lit "HTTP/1.0 200 OK" ++ CRLF ++ CRLF; lit "hello"] <> [])
    by discriminate.
  assert (Hall : Forall (fun c => c <> NUL)
            (concat [lit "HTTP/1.0 200 OK" ++ CRLF ++ CRLF; lit "hello"])).
  { vm_compute. repeat constructor; discriminate. }
  split; [exact two_reads_cooperative|]. split; [exact two_reads_delivers|].
  destruct (http_query_unterminated (lit "example.com") (lit "a.txt") None 80
              two_reads _ [] two_reads_cooperative two_reads_delivers Hfit Hne Hall)
    as (b & Hb & _ & _ & Hu).
  exists b. split; [exact Hb|exact Hu].
Defined.

End TransportCoverage.

Section EntryPointCoverage.
Import Http.

Lemma first_slash_split (url : bytes) (i : nat) :
  first_at SLASH url i ->
  url = take i url ++ SLASH ++ drop (S i) url
  /\ ~ occurs SLASH (take i url).
Proof.
  intros [(pre & post & Hurl & Hlen) Hfirst]. subst i.
  assert (Htake : take (Datatypes.length pre) url = pre).
  { rewrite Hurl. apply take_app_length. }
  assert (Hdrop : drop (S (Datatypes.length pre)) url = post).
  { rewrite Hurl. change (SLASH ++ post) with ("/"%char :: post).
    replace (S (Datatypes.length pre)) with (Datatypes.length (pre ++ ["/"%char]))
      by (rewrite length_app; simpl; lia).
    change (pre ++ "/"%char :: post) with (pre ++ ["/"%char] ++ post).
    rewrite app_assoc. apply drop_app_length. }
  rewrite Htake, Hdrop. split; [exact Hurl|].
  intros [j (a & b & Hpre & Hj)].
  apply (Hfirst j).
  - apply (f_equal (@Datatypes.length ascii)) in Hpre.
    rewrite !length_app in Hpre. simpl in Hpre. lia.
  - exists a, (b ++ SLASH ++ post). split; [|exact Hj].
    rewrite Hurl, Hpre, <- !app_assoc. reflexivity.
Qed.

(** X11.  [http_url] cuts the URL at its first '/': the host is what
    precedes it and holds no '/', the page is what follows it, and the
    query goes to that host on port 80.  Host, '/' and page put together
    are the URL again. *)
Theorem http_url_split (url : bytes) (range : option bytes) (s : state) (i : nat) :
  len url < BUF_SIZE ->
  first_at SLASH url i ->
  http_url url range s = http_query (take i url) (Some (drop (S i) url)) range 80 s
  /\ url = take i url ++ SLASH ++ drop (S i) url
  /\ ~ occurs SLASH (take i url).
Proof.
  intros Hlen Hfirst. split; [|apply first_slash_split; exact Hfirst].
  unfold http_url, mbind, lift, split_url.
  destruct (Z.leb_spec BUF_SIZE (len url)); [lia|].
  fold SLASH. rewrite (strstr_first _ _ _ Hfirst). reflexivity.
Qed.

Lemma http_url_split_witness :
  len (lit "example.com/dir/a.txt") < BUF_SIZE
  /\ first_at SLASH (lit "example.com/dir/a.txt") 11
  /\ http_url (lit "example.com/dir/a.txt") None two_reads
     = http_query (lit "example.com") (Some (lit "dir/a.txt")) None 80 two_reads.
Proof.
  assert (Hlen : len (lit "example.com/dir/a.txt") < BUF_SIZE)
    by (vm_compute; reflexivity).
  assert (Hfirst : first_at SLASH (lit "example.com/dir/a.txt") 11).
  { apply strstr_Some. vm_compute. reflexivity. }
  split; [exact Hlen|]. split; [exact Hfirst|].
  exact (proj1 (http_url_split (lit "example.com/dir/a.txt") None two_reads 11
                  Hlen Hfirst)).
Defined.

Lemma no_slash_in_host : ~ occurs SLASH (lit "example.com").
Proof. apply strstr_None. vm_compute. reflexivity. Qed.

Lemma http_url_no_slash_witness :
  len (lit "example.com") < BUF_SIZE
  /\ ~ occurs SLASH (lit "example.com")
  /\ http_url (lit "example.com") None quiet
     = (Returns None, snd (emit (split_failure (lit "example.com")) quiet)).
Proof.
  assert (Hlen : len (lit "example.com") < BUF_SIZE) by (vm_compute; reflexivity).
  split; [exact Hlen|]. split; [exact no_slash_in_host|].
  exact (http_url_no_slash (lit "example.com") None quiet Hlen no_slash_in_host).
Defined.

Lemma get_num_tasks_no_slash_witness :
  len (lit "example.com") < BUF_SIZE
  /\ ~ occurs SLASH (lit "example.com")
  /\ fst (get_num_tasks (lit "example.com") 4 quiet) = Undefined.
Proof.
  assert (Hlen : len (lit "example.com") < BUF_SIZE) by (vm_compute; reflexivity).
  split; [exact Hlen|]. split; [exact no_slash_in_host|].
  rewrite (get_num_tasks_no_slash (lit "example.com") 4 quiet Hlen no_slash_in_host).
  reflexivity.
Defined.

End EntryPointCoverage.

Section ParserCoverage.
Import Http.

Lemma atoi_digits_range (ds : bytes) :
  Forall (fun c => isdigit c = true) ds ->
  atoi ds = if digits_value ds <=? INT_MAX then Returns (digits_value ds)
            else Undefined.
Proof.
  intros Hds. pose proof (digits_value_nonneg ds Hds) as Hnn.
  unfold atoi.
  assert (Hv : (match skip_spaces ds with
                | c :: rest =>
                    if Ascii.eqb c "-" then - decimal 0 rest
                    else if Ascii.eqb c "+" then decimal 0 rest
                    else decimal 0 (skip_spaces ds)
                | [] => 0
                end) = digits_value ds).
  { destruct Hds as [|c ds Hc Hds]; [reflexivity|].
    assert (Hsp : isspace c = false).
    { unfold isdigit in Hc. unfold isspace.
      apply andb_prop in Hc. destruct Hc as [H1 H2].
      apply Z.leb_le in H1. apply Z.leb_le in H2.
      destruct (Z.eqb_spec (Z.of_nat (nat_of_ascii c)) 32); [lia|].
      destruct (Z.leb_spec (Z.of_nat (nat_of_ascii c)) 13); [lia|].
      rewrite andb_false_r. reflexivity. }
    cbn [skip_spaces]. rewrite Hsp.
    destruct (Ascii.eqb_spec c "-") as [->|_]; [discriminate Hc|].
    destruct (Ascii.eqb_spec c "+") as [->|_]; [discriminate Hc|].
    apply decimal_digits. constructor; assumption. }
  rewrite Hv.
  destruct (Z.leb_spec INT_MIN (digits_value ds)); [|unfold INT_MIN in *; lia].
  reflexivity.
Qed.

(** The two calls of [strstr] and the NUL written at the line feed. *)
Lemma get_content_size_steps (response : Buffer) (pre line rest : bytes) :
  c_str (data response) = Some (pre ++ CONTENT_LENGTH ++ line ++ LF ++ rest) ->
  first_at CONTENT_LENGTH (pre ++ CONTENT_LENGTH ++ line ++ LF ++ rest)
    (Datatypes.length pre) ->
  Forall (fun c => c <> ascii_of_nat 10) line ->
  exists tail,
    Forall (fun c => c <> NUL) (pre ++ CONTENT_LENGTH ++ line)
    /\ Datatypes.length ((pre ++ CONTENT_LENGTH ++ line) ++ NUL :: rest ++ NUL :: tail)
       = Datatypes.length (data response)
    /\ get_content_size_by_head response
       = (let! lj := collect_digits ((CONTENT_LENGTH ++ line) ++ NUL :: rest ++ NUL :: tail)
                      0 [] 0 in
          if snd lj <? BUF_SIZE then
            let! content_size := atoi (fst lj) in
            Returns (content_size,
                     {| data := (pre ++ CONTENT_LENGTH ++ line)
                                ++ NUL :: rest ++ NUL :: tail;
                        length := length response |})
          else Undefined).
Proof.
  intros Hc Hfirst Hline. unfold get_content_size_by_head.
  rewrite (strstr_at_start _ _ _ Hc). fold CONTENT_LENGTH.
  rewrite (strstr_first _ _ _ Hfirst). cbn [fmap option_fmap option_map obind].
  destruct (c_str_Some _ _ Hc) as (tail & Hmem & Hnul).
  exists tail.
  assert (Hcut : Forall (fun c => c <> NUL) (pre ++ CONTENT_LENGTH ++ line)).
  { rewrite !app_assoc in Hnul. apply Forall_app in Hnul. destruct Hnul as [Hnul _].
    apply Forall_app in Hnul. destruct Hnul as [Hnul _].
    rewrite <- app_assoc in Hnul. exact Hnul. }
  split; [exact Hcut|]. split.
  { rewrite Hmem, !length_app. cbn [Datatypes.length]. rewrite !length_app.
    cbn [Datatypes.length]. unfold LF. cbn [Datatypes.length]. lia. }
  apply Forall_app in Hnul. destruct Hnul as [Hpre Hnul].
  rewrite Hmem, <- app_assoc.
  change (Z.of_nat (Datatypes.length pre)) with (len pre).
  rewrite (strstr_at_offset pre _ tail LF Hnul).
  assert (Hlf : first_at LF ((CONTENT_LENGTH ++ line) ++ ascii_of_nat 10 :: rest)
                  (Datatypes.length (CONTENT_LENGTH ++ line))).
  { apply first_char_at. apply Forall_app. split; [|assumption].
    unfold CONTENT_LENGTH. repeat constructor; discriminate. }
  rewrite <- app_assoc in Hlf.
  change (LF ++ rest) with (ascii_of_nat 10 :: rest).
  rewrite (strstr_first _ _ _ Hlf).
  cbn [fmap option_fmap option_map obind].
  set (e := len pre + Z.of_nat (Datatypes.length (CONTENT_LENGTH ++ line))).
  assert (He : Z.to_nat e = (Datatypes.length (pre ++ CONTENT_LENGTH ++ line) + 0)%nat).
  { unfold e, len. rewrite !length_app. lia. }
  replace (pre ++ (CONTENT_LENGTH ++ line ++ ascii_of_nat 10 :: rest) ++ NUL :: tail)
    with ((pre ++ CONTENT_LENGTH ++ line) ++ ascii_of_nat 10 :: rest ++ NUL :: tail)
    by (rewrite <- !app_assoc; reflexivity).
  rewrite He, insert_app_r. cbn [insert list_insert].
  replace (Z.to_nat (len pre)) with (Datatypes.length pre) by (unfold len; lia).
  rewrite <- (app_assoc pre) at 1. rewrite drop_app_length.
  reflexivity.
Qed.

Lemma digits_of_header_line (line : bytes) :
  filter (fun c => isdigit c = true) (CONTENT_LENGTH ++ line)
  = filter (fun c => isdigit c = true) line.
Proof. rewrite filter_app. reflexivity. Qed.

Lemma get_content_size_run (response : Buffer) (pre line rest : bytes) :
  let text := pre ++ CONTENT_LENGTH ++ line ++ LF ++ rest in
  let digits := filter (fun c => isdigit c = true) line in
  c_str (data response) = Some text ->
  first_at CONTENT_LENGTH text (Datatypes.length pre) ->
  Forall (fun c => c <> ascii_of_nat 10) line ->
  len (CONTENT_LENGTH ++ line) <= INT_MAX ->
  len digits < BUF_SIZE ->
  digits_value digits <= INT_MAX ->
  exists response',
    get_content_size_by_head response = Returns (digits_value digits, response')
    /\ c_str (data response') = Some (pre ++ CONTENT_LENGTH ++ line)
    /\ Datatypes.length (data response') = Datatypes.length (data response)
    /\ length response' = length response.
Proof.
  intros text digits Hc Hfirst Hline Hfit Hcount Hmax.
  destruct (get_content_size_steps response pre line rest Hc Hfirst Hline)
    as (tail & Hcut & Hsize & Hrun).
  assert (Hhead : Forall (fun c => c <> NUL) (CONTENT_LENGTH ++ line)).
  { apply Forall_app in Hcut. apply Hcut. }
  rewrite (collect_digits_cases _ _ [] 0 0 Hhead) in Hrun
    by (unfold INT_MAX, BUF_SIZE; lia).
  rewrite digits_of_header_line, !Z.add_0_l in Hrun. fold digits in Hrun.
  destruct (Z.leb_spec (len (CONTENT_LENGTH ++ line)) INT_MAX); [|lia].
  destruct (Z.leb_spec (len digits) BUF_SIZE); [|lia].
  cbn [andb app fst snd obind] in Hrun.
  destruct (Z.ltb_spec (len digits) BUF_SIZE); [|lia].
  rewrite (atoi_digits_range digits (filter_digits line)) in Hrun.
  destruct (Z.leb_spec (digits_value digits) INT_MAX); [|lia].
  cbn [obind] in Hrun.
  eexists. split; [exact Hrun|]. cbn [data length].
  split; [apply c_str_app; exact Hcut|]. split; [exact Hsize|reflexivity].
Qed.

(** X15.  [get_content_size_by_head] changes the response: it writes a
    NUL over the line feed that ends the [Content-Length] line.  The
    block keeps its size, but the string in it now ends with that line:
    what followed is out of reach of the string functions.  The call
    returns when the line, from [Content-Length:] to its end, has at most
    [INT_MAX] characters, fewer than [BUF_SIZE] digits and an [int] for
    its number. *)
Theorem get_content_size_cuts_response (response : Buffer) (pre line rest : bytes) :
  let text := pre ++ CONTENT_LENGTH ++ line ++ LF ++ rest in
  let digits := filter (fun c => isdigit c = true) line in
  c_str (data response) = Some text ->
  first_at CONTENT_LENGTH text (Datatypes.length pre) ->
  Forall (fun c => c <> ascii_of_nat 10) line ->
  len (CONTENT_LENGTH ++ line) <= INT_MAX ->
  len digits < BUF_SIZE ->
  digits_value digits <= INT_MAX ->
  exists response',
    get_content_size_by_head response = Returns (digits_value digits, response')
    /\ c_str (data response') = Some (pre ++ CONTENT_LENGTH ++ line)
    /\ Datatypes.length (data response') = Datatypes.length (data response)
    /\ length response' = length response.
Proof.
  intros text digits Hc Hfirst Hline Hfit Hcount Hmax.
  destruct (get_content_size_steps response pre line rest Hc Hfirst Hline)
    as (tail & Hcut & Hsize & Hrun).
  assert (Hhead : Forall (fun c => c <> NUL) (CONTENT_LENGTH ++ line)).
  { apply Forall_app in Hcut. apply Hcut. }
  rewrite (collect_digits_cases _ _ [] 0 0 Hhead) in Hrun
    by (unfold INT_MAX, BUF_SIZE; lia).
  rewrite digits_of_header_line, !Z.add_0_l in Hrun. fold digits in Hrun.
  destruct (Z.leb_spec (len (CONTENT_LENGTH ++ line)) INT_MAX); [|lia].
  destruct (Z.leb_spec (len digits) BUF_SIZE); [|lia].
  cbn [andb app fst snd obind] in Hrun.
  destruct (Z.ltb_spec (len digits) BUF_SIZE); [|lia].
  rewrite (atoi_digits_range digits (filter_digits line)) in Hrun.
  destruct (Z.leb_spec (digits_value digits) INT_MAX); [|lia].
  cbn [obind] in Hrun.
  eexists. split; [exact Hrun|]. cbn [data length].
  split; [apply c_str_app; exact Hcut|]. split; [exact Hsize|reflexivity].
Qed.

(** X18.  A [Content-Length] beyond [INT_MAX] (2 GiB and more) is handed
    to [atoi], whose result is then undefined. *)
Theorem get_content_size_too_large (response : Buffer) (pre line rest : bytes) :
  let text := pre ++ CONTENT_LENGTH ++ line ++ LF ++ rest in
  let digits := filter (fun c => isdigit c = true) line in
  c_str (data response) = Some text ->
  first_at CONTENT_LENGTH text (Datatypes.length pre) ->
  Forall (fun c => c <> ascii_of_nat 10) line ->
  len digits < BUF_SIZE ->
  INT_MAX < digits_value digits ->
  get_content_size_by_head response = Undefined.
Proof.
  intros text digits Hc Hfirst Hline Hcount Hbig.
  destruct (get_content_size_steps response pre line rest Hc Hfirst Hline)
    as (tail & Hcut & Hsize & Hrun).
  assert (Hhead : Forall (fun c => c <> NUL) (CONTENT_LENGTH ++ line)).
  { apply Forall_app in Hcut. apply Hcut. }
  rewrite (collect_digits_cases _ _ [] 0 0 Hhead) in Hrun
    by (unfold INT_MAX, BUF_SIZE; lia).
  rewrite digits_of_header_line, !Z.add_0_l in Hrun. fold digits in Hrun.
  destruct ((len (CONTENT_LENGTH ++ line) <=? INT_MAX) && (len digits <=? BUF_SIZE));
    [|exact Hrun].
  cbn [app fst snd obind] in Hrun.
  destruct (Z.ltb_spec (len digits) BUF_SIZE); [|lia].
  rewrite (atoi_digits_range digits (filter_digits line)) in Hrun.
  destruct (Z.leb_spec (digits_value digits) INT_MAX); [lia|].
  exact Hrun.
Qed.

(** X19.  With [BUF_SIZE] digits or more on the [Content-Length] line the
    function writes behind its array [length]: undefined. *)
Theorem get_content_size_many_digits (response : Buffer) (pre line rest : bytes) :
  let text := pre ++ CONTENT_LENGTH ++ line ++ LF ++ rest in
  let digits := filter (fun c => isdigit c = true) line in
  c_str (data response) = Some text ->
  first_at CONTENT_LENGTH text (Datatypes.length pre) ->
  Forall (fun c => c <> ascii_of_nat 10) line ->
  BUF_SIZE <= len digits ->
  get_content_size_by_head response = Undefined.
Proof.
  intros text digits Hc Hfirst Hline Hcount.
  destruct (get_content_size_steps response pre line rest Hc Hfirst Hline)
    as (tail & Hcut & Hsize & Hrun).
  assert (Hhead : Forall (fun c => c <> NUL) (CONTENT_LENGTH ++ line)).
  { apply Forall_app in Hcut. apply Hcut. }
  rewrite (collect_digits_cases _ _ [] 0 0 Hhead) in Hrun
    by (unfold INT_MAX, BUF_SIZE; lia).
  rewrite digits_of_header_line, !Z.add_0_l in Hrun. fold digits in Hrun.
  destruct ((len (CONTENT_LENGTH ++ line) <=? INT_MAX) && (len digits <=? BUF_SIZE));
    [|exact Hrun].
  cbn [app fst snd obind] in Hrun.
  destruct (Z.ltb_spec (len digits) BUF_SIZE); [lia|].
  exact Hrun.
Qed.


Lemma spaced_facts :
  c_str (data length_spaced)
  = Some (spaced_pre ++ CONTENT_LENGTH ++ spaced_line ++ LF ++ spaced_rest)
  /\ first_at CONTENT_LENGTH
       (spaced_pre ++ CONTENT_LENGTH ++ spaced_line ++ LF ++ spaced_rest)
       (Datatypes.length spaced_pre)
  /\ Forall (fun c => c <> ascii_of_nat 10) spaced_line
  /\ len (CONTENT_LENGTH ++ spaced_line) <= INT_MAX
  /\ len (filter (fun c => isdigit c = true) spaced_line) < BUF_SIZE
  /\ digits_value (filter (fun c => isdigit c = true) spaced_line) = 1234.
Proof.
  split; [reflexivity|]. split; [apply strstr_Some; vm_compute; reflexivity|].
  split; [repeat constructor; discriminate|].
  split; [vm_compute; discriminate|].
  split; vm_compute; reflexivity.
Qed.

Lemma get_content_size_value_witness :
  exists response', get_content_size_by_head length_spaced = Returns (1234, response').
Proof.
  destruct spaced_facts as (Hc & Hfirst & Hline & Hfit & Hcount & Hval).
  rewrite <- Hval.
  apply (get_content_size_value length_spaced spaced_pre spaced_line spaced_rest
           Hc Hfirst Hline Hfit Hcount).
  rewrite Hval. unfold INT_MAX. lia.
Defined.

Lemma get_content_size_cuts_response_witness :
  exists response',
    get_content_size_by_head length_spaced = Returns (1234, response')
    /\ c_str (data response') = Some (spaced_pre ++ CONTENT_LENGTH ++ spaced_line).
Proof.
  destruct spaced_facts as (Hc & Hfirst & Hline & Hfit & Hcount & Hval).
  assert (Hmax : digits_value (filter (fun c => isdigit c = true) spaced_line)
                 <= INT_MAX) by (rewrite Hval; unfold INT_MAX; lia).
  destruct (get_content_size_cuts_response length_spaced spaced_pre spaced_line
              spaced_rest Hc Hfirst Hline Hfit Hcount Hmax) as (r & Hr & Hs & _).
  exists r. rewrite <- Hval. split; [exact Hr|exact Hs].
Defined.

Lemma get_content_size_header_absent_witness :
  c_str (data no_length_response) = Some (text_of no_length_response)
  /\ ~ occurs CONTENT_LENGTH (text_of no_length_response)
  /\ get_content_size_by_head no_length_response = Undefined.
Proof.
  assert (Hc : c_str (data no_length_response) = Some (text_of no_length_response))
    by reflexivity.
  assert (Hno : ~ occurs CONTENT_LENGTH (text_of no_length_response))
    by (apply strstr_None; vm_compute; reflexivity).
  split; [exact Hc|]. split; [exact Hno|].
  exact (get_content_size_header_absent no_length_response _ Hc Hno).
Defined.

Lemma get_content_size_line_open_witness :
  c_str (data length_54321_open) = Some ([] ++ CONTENT_LENGTH ++ lit " 54321")
  /\ get_content_size_by_head length_54321_open = Undefined.
Proof.
  assert (Hc : c_str (data length_54321_open)
               = Some ([] ++ CONTENT_LENGTH ++ lit " 54321")) by reflexivity.
  assert (Hfirst : first_at CONTENT_LENGTH ([] ++ CONTENT_LENGTH ++ lit " 54321")
                     (Datatypes.length (@nil ascii)))
    by (apply strstr_Some; vm_compute; reflexivity).
  assert (Hline : Forall (fun c => c <> ascii_of_nat 10) (lit " 54321"))
    by (repeat constructor; discriminate).
  split; [exact Hc|].
  exact (get_content_size_line_open length_54321_open [] (lit " 54321")
           Hc Hfirst Hline).
Defined.

Lemma get_content_size_too_large_witness :
  INT_MAX < digits_value (filter (fun c => isdigit c = true)
                            (lit " 3000000000" ++ [ascii_of_nat 13]))
  /\ get_content_size_by_head length_3e9 = Undefined.
Proof.
  assert (Hc : c_str (data length_3e9)
               = Some ([] ++ CONTENT_LENGTH ++ (lit " 3000000000" ++ [ascii_of_nat 13])
                       ++ LF ++ [])) by reflexivity.
  assert (Hfirst : first_at CONTENT_LENGTH
                     ([] ++ CONTENT_LENGTH ++ (lit " 3000000000" ++ [ascii_of_nat 13])
                      ++ LF ++ [])
                     (Datatypes.length (@nil ascii)))
    by (apply strstr_Some; vm_compute; reflexivity).
  assert (Hline : Forall (fun c => c <> ascii_of_nat 10)
                    (lit " 3000000000" ++ [ascii_of_nat 13]))
    by (repeat constructor; discriminate).
  assert (Hcount : len (filter (fun c => isdigit c = true)
                          (lit " 3000000000" ++ [ascii_of_nat 13])) < BUF_SIZE)
    by (vm_compute; reflexivity).
  assert (Hbig : INT_MAX < digits_value (filter (fun c => isdigit c = true)
                                           (lit " 3000000000" ++ [ascii_of_nat 13])))
    by (vm_compute; reflexivity).
  split; [exact Hbig|].
  exact (get_content_size_too_large length_3e9 [] _ [] Hc Hfirst Hline Hcount Hbig).
Defined.

Lemma get_content_size_many_digits_witness :
  BUF_SIZE <= len (filter (fun c => isdigit c = true) (replicate 1024 "1"%char))
  /\ get_content_size_by_head length_flood = Undefined.
Proof.
  assert (Hc : c_str (data length_flood)
               = Some ([] ++ CONTENT_LENGTH ++ replicate 1024 "1"%char ++ LF ++ []))
    by (vm_compute; reflexivity).
  assert (Hfirst : first_at CONTENT_LENGTH
                     ([] ++ CONTENT_LENGTH ++ replicate 1024 "1"%char ++ LF ++ [])
                     (Datatypes.length (@nil ascii)))
    by (apply strstr_Some; vm_compute; reflexivity).
  assert (Hline : Forall (fun c => c <> ascii_of_nat 10) (replicate 1024 "1"%char))
    by (apply Forall_replicate; discriminate).
  assert (Hcount : BUF_SIZE
                   <= len (filter (fun c => isdigit c = true) (replicate 1024 "1"%char)))
    by (vm_compute; discriminate).
  split; [exact Hcount|].
  exact (get_content_size_many_digits length_flood [] _ [] Hc Hfirst Hline Hcount).
Defined.

End ParserCoverage.

Section PlannerCoverage.
Import Http.

(** X20.  With range support, the [t] chunks of size [c / t] that
    [calc_tasks] plans cover [t * (c / t)] bytes: all of the content but
    its last [c mod t] bytes, which the plan leaves to the caller.  The
    chunk size is 0 exactly when there are more threads than bytes. *)
Theorem calc_tasks_remainder (c t p : Z) (s : state) :
  0 <= c -> 1 <= t ->
  let chunk := max_chunk_size (snd (calc_tasks (Some p) c t s)) in
  fst (calc_tasks (Some p) c t s) = Returns t
  /\ t * chunk <= c < t * chunk + t
  /\ c - t * chunk = c mod t
  /\ (chunk = 0 <-> c < t).
Proof.
  intros Hc Ht. unfold calc_tasks.
  destruct (Z.eqb_spec t 0) as [->|_]; [lia|].
  destruct (Z.eqb_spec t (-1)) as [->|_]; [lia|].
  rewrite andb_false_r. cbn [orb]. cbn.
  rewrite Z.quot_div_nonneg by lia.
  pose proof (Z.div_mod c t ltac:(lia)) as Hdm.
  pose proof (Z.mod_pos_bound c t ltac:(lia)) as Hmod.
  split; [reflexivity|]. split; [lia|]. split; [lia|].
  split.
  - intros Hz. rewrite Hz in Hdm. lia.
  - intros Hlt. apply Z.div_small. lia.
Qed.

Lemma calc_tasks_remainder_witness :
  0 <= 1003 /\ 1 <= 4
  /\ 4 * max_chunk_size (snd (calc_tasks (Some 17) 1003 4 quiet)) <= 1003
  /\ 1003 - 4 * max_chunk_size (snd (calc_tasks (Some 17) 1003 4 quiet)) = 1003 mod 4.
Proof.
  assert (H0 : 0 <= 1003) by lia.
  assert (H1 : 1 <= 4) by lia.
  destruct (calc_tasks_remainder 1003 4 17 quiet H0 H1) as (_ & Hb & Hc & _).
  split; [exact H0|]. split; [exact H1|]. split; [apply Hb|exact Hc].
Defined.

(** X21.  [calc_tasks] is undefined exactly when range support was found
    and the division cannot be done: zero threads, or [INT_MIN / -1].
    Otherwise it returns the thread count as it is (also when it is
    negative) with range support and 1 without, and it changes nothing
    but [max_chunk_size]; it never ends the process. *)
Theorem calc_tasks_defined (accept : option Z) (c t : Z) (s : state) :
  (fst (calc_tasks accept c t s) = Undefined
   <-> accept <> None /\ (t = 0 \/ (c = INT_MIN /\ t = -1)))
  /\ (forall n, fst (calc_tasks accept c t s) = Returns n ->
        n = match accept with Some _ => t | None => 1 end)
  /\ (forall status, fst (calc_tasks accept c t s) <> Exits status)
  /\ log (snd (calc_tasks accept c t s)) = log s
  /\ reads (snd (calc_tasks accept c t s)) = reads s.
Proof.
  unfold calc_tasks. destruct accept as [p|].
  - destruct (Z.eqb_spec t 0) as [Ht0|Ht0]; cbn [orb].
    + cbn. intuition (try discriminate; try congruence).
    + destruct (Z.eqb_spec c INT_MIN) as [Hc|Hc]; cbn [andb].
      * destruct (Z.eqb_spec t (-1)) as [Ht1|Ht1]; cbn;
          intuition (try discriminate; try congruence).
      * cbn. intuition (try discriminate; try congruence).
  - cbn. intuition (try discriminate; try congruence).
Qed.

Lemma get_num_tasks_run (url : bytes) (threads : Z) (s : state) (i : nat)
    (chunks : list bytes) (rest : list read_result) (text : bytes) (value : Z) :
  len url < BUF_SIZE ->
  first_at SLASH url i ->
  cooperative s ->
  delivers s chunks rest ->
  len (request_text (take i url) (drop (S i) url) (Some []) HEAD) < 1024 ->
  c_str (concat chunks) = Some text ->
  announces text value ->
  1 <= threads ->
  get_num_tasks url threads s
  = (Returns (match strstr text ACCEPT_RANGES with Some _ => threads | None => 1 end),
     {| max_chunk_size := match strstr text ACCEPT_RANGES with
                          | Some _ => value / threads
                          | None => value
                          end;
        getaddrinfo_rc := getaddrinfo_rc s; socket_fd := socket_fd s;
        connect_rc := connect_rc s; write_rc := write_rc s; reads := tail rest;
        log := log s ++ [Connect (take i url) 80 (socket_fd s) (connect_rc s);
                         Write (socket_fd s)
                           (request_text (take i url) (drop (S i) url) (Some []) HEAD)
                           (write_rc s);
                         Close (socket_fd s)] |}).
Proof.
  intros Hlen Hslash Hcoop Hdel Hfit Hc Hann Hthreads.
  destruct Hann
    as (pre & line & rest' & Htext & Hfirst & Hline & Hidx & Hcount & Hval & Hmax).
  subst text.
  assert (Hne : chunks <> []) by (intros ->; discriminate Hc).
  assert (Hvalue : 0 <= value).
  { rewrite <- Hval. apply digits_value_nonneg, filter_digits. }
  unfold get_num_tasks, mbind, lift at 1, split_url.
  destruct (Z.leb_spec BUF_SIZE (len url)); [lia|].
  fold SLASH. rewrite (strstr_first _ _ _ Hslash).
  cbn [ret fst snd].
  rewrite (client_socket_ok (take i url) 80 s Hcoop). cbn [snd emit].
  unfold lift at 1. rewrite pack_http_request_cases.
  destruct (Z.ltb_spec (len (request_text (take i url) (drop (S i) url) (Some []) HEAD))
              1024); [|lia].
  rewrite send_http_request_ok by (cbn [write_rc]; apply Hcoop).
  cbn [snd emit write_rc].
  rewrite (receive_all_ok _ chunks rest) by exact Hdel.
  cbn [snd set_reads].
  destruct chunks as [|c cs]; [contradiction|]. cbn [received].
  unfold lift at 1, is_accept_ranges. cbn [data].
  rewrite (strstr_at_start _ _ _ Hc). fold ACCEPT_RANGES.
  unfold lift at 1.
  destruct (get_content_size_run {| data := concat (c :: cs);
                                    length := len (concat (c :: cs)) |}
              pre line rest' Hc Hfirst Hline Hidx Hcount)
    as (response' & Hrun & _); [rewrite Hval; exact Hmax|].
  rewrite Hrun, Hval. cbn [fst].
  destruct (strstr (pre ++ CONTENT_LENGTH ++ line ++ LF ++ rest') ACCEPT_RANGES)
    as [j|]; cbn [fmap option_fmap option_map calc_tasks].
  - destruct (Z.eqb_spec threads 0) as [->|_]; [lia|].
    destruct (Z.eqb_spec threads (-1)) as [->|_]; [lia|].
    rewrite andb_false_r. cbn [orb].
    rewrite Z.quot_div_nonneg by lia.
    unfold mbind. cbn. rewrite <- ?app_assoc. reflexivity.
  - unfold mbind. cbn. rewrite <- ?app_assoc. reflexivity.
Qed.

(** X22.  The probe from end to end.  For a URL with a '/', when the
    system calls succeed and the server's answer, NUL included, arrives
    with a complete [Content-Length] line of at most [INT_MAX] characters
    announcing [value]:
    [get_num_tasks] connects to the host on port 80, sends one HEAD
    request for the page without a [Range] line, closes the socket, and
    returns [threads] tasks with chunk size [value / threads] when the
    answer contains "Accept-Ranges: bytes", and 1 task with chunk size
    [value] when it does not. *)
Theorem get_num_tasks_plan (url : bytes) (threads : Z) (s : state) (i : nat)
    (chunks : list bytes) (rest : list read_result) (text : bytes) (value : Z) :
  len url < BUF_SIZE ->
  first_at SLASH url i ->
  cooperative s ->
  delivers s chunks rest ->
  len (request_text (take i url) (drop (S i) url) (Some []) HEAD) < 1024 ->
  c_str (concat chunks) = Some text ->
  announces text value ->
  1 <= threads ->
  fst (get_num_tasks url threads s)
  = Returns (match strstr text ACCEPT_RANGES with Some _ => threads | None => 1 end)
  /\ fst (get_max_chunk_size (snd (get_num_tasks url threads s)))
     = Returns (match strstr text ACCEPT_RANGES with
                | Some _ => value / threads
                | None => value
                end)
  /\ log (snd (get_num_tasks url threads s))
     = log s ++ [Connect (take i url) 80 (socket_fd s) (connect_rc s);
                 Write (socket_fd s)
                   (request_text (take i url) (drop (S i) url) (Some []) HEAD)
                   (write_rc s);
                 Close (socket_fd s)].
Proof.
  intros Hlen Hslash Hcoop Hdel Hfit Hc Hann Hthreads.
  rewrite (get_num_tasks_run url threads s i chunks rest text value
             Hlen Hslash Hcoop Hdel Hfit Hc Hann Hthreads).
  repeat split.
Qed.

Lemma ranged_server_facts :
  len (lit "example.com/file") < BUF_SIZE
  /\ first_at SLASH (lit "example.com/file") 11
  /\ cooperative ranged_server
  /\ delivers ranged_server [probe_text ++ [NUL]] []
  /\ len (request_text (take 11 (lit "example.com/file"))
            (drop 12 (lit "example.com/file")) (Some []) HEAD) < 1024
  /\ c_str (concat [probe_text ++ [NUL]]) = Some probe_text
  /\ announces probe_text 1000.
Proof.
  split; [vm_compute; reflexivity|].
  split; [apply strstr_Some; vm_compute; reflexivity|].
  split; [repeat split; cbn; lia|].
  split.
  { split; [reflexivity|]. split; [|split; [exact I|vm_compute; reflexivity]].
    repeat constructor; vm_compute; congruence. }
  split; [vm_compute; reflexivity|].
  split; [vm_compute; reflexivity|].
  exists (lit "HTTP/1.0 200 OK" ++ CRLF ++ lit "Accept-Ranges: bytes" ++ CRLF),
         (lit " 1000" ++ [ascii_of_nat 13]), CRLF.
  split; [reflexivity|].
  split; [apply strstr_Some; vm_compute; reflexivity|].
  split; [repeat constructor; discriminate|].
  split; [vm_compute; discriminate|].
  split; [vm_compute; reflexivity|].
  split; [vm_compute; reflexivity|unfold INT_MAX; lia].
Qed.

Lemma get_num_tasks_plan_witness :
  1 <= 4
  /\ fst (get_num_tasks (lit "example.com/file") 4 ranged_server) = Returns 4
  /\ fst (get_max_chunk_size
            (snd (get_num_tasks (lit "example.com/file") 4 ranged_server)))
     = Returns 250.
Proof.
  destruct ranged_server_facts as (H1 & H2 & H3 & H4 & H5 & H6 & H7).
  assert (Ht : 1 <= 4) by lia.
  destruct (get_num_tasks_plan (lit "example.com/file") 4 ranged_server 11
              [probe_text ++ [NUL]] [] probe_text 1000 H1 H2 H3 H4 H5 H6 H7 Ht)
    as (Ha & Hb & _).
  split; [exact Ht|]. split.
  - rewrite Ha. vm_compute. reflexivity.
  - rewrite Hb. vm_compute. reflexivity.
Defined.

End PlannerCoverage.
